(** * Quantum Adventure: the game-state engine of [Quantum Game/main.py]

    A shallow embedding of the engine (entropy draws, maze generation,
    entangled movement, adversary random walk, win/loss check) together
    with the properties its specification states about it.

    The program talks to three things it does not control: the quantum
    simulator (a Hadamard on every qubit followed by a measurement of all
    of them, i.e. one fair coin per qubit), Python's [random] module and
    the pygame event queue.  They are modelled as a [World] that the code
    reads from: a finite script of coin flips, of generator words and of
    event polls.  Every function that touches them is a state transformer
    over that world which can also raise, exit the process, or find the
    script exhausted while it is still asking. *)

From Stdlib Require Import ZArith List Bool Lia String.
From stdpp Require Import base list.
Import ListNotations.
Open Scope Z_scope.

(** ** Python values *)

(** A position is a tuple [(x, y)] of Python integers. *)
Abbreviation pos := (Z * Z)%type.

(** [p == q] on tuples of integers. *)
Definition pos_eqb (p q : pos) : bool :=
  (fst p =? fst q) && (snd p =? snd q).

(** [p in l] for a list of tuples. *)
Definition pos_in (p : pos) (l : list pos) : bool := existsb (pos_eqb p) l.

(** The exceptions the engine can run into. *)
Inductive exn : Type := IndexError | ValueError.

(** Index normalisation of Python sequences: [0 <= i < len] is taken as it
    is, [-len <= i < 0] counts from the end, anything else is out of
    range. *)
Definition py_index (len : nat) (i : Z) : option nat :=
  if (0 <=? i) && (i <? Z.of_nat len) then Some (Z.to_nat i)
  else if (- Z.of_nat len <=? i) && (i <? 0) then Some (Z.to_nat (Z.of_nat len + i))
  else None.

(** [l[i]]; [None] stands for [IndexError]. *)
Definition getitem {A : Type} (l : list A) (i : Z) : option A :=
  match py_index (length l) i with
  | Some k => l !! k
  | None => None
  end.

(** [l[i] = v]; [None] stands for [IndexError]. *)
Definition setitem {A : Type} (l : list A) (i : Z) (v : A) : option (list A) :=
  match py_index (length l) i with
  | Some k => Some (<[k := v]> l)
  | None => None
  end.

(** [grid[y][x]]. *)
Definition getitem2 {A : Type} (g : list (list A)) (y x : Z) : option A :=
  match getitem g y with
  | Some row => getitem row x
  | None => None
  end.

(** [grid[y][x] = v]: the row object [grid[y]] is fetched and updated in
    place.  Every row of a grid is a list of its own, so the update is
    seen through [grid[y]] only. *)
Definition setitem2 {A : Type} (g : list (list A)) (y x : Z) (v : A)
  : option (list (list A)) :=
  match getitem g y with
  | Some row =>
      match setitem row x v with
      | Some row' => setitem g y row'
      | None => None
      end
  | None => None
  end.

(** [l[:k]]: the first [k] items, or all but the last [-k] when [k] is
    negative. *)
Definition slice_to {A : Type} (l : list A) (k : Z) : list A :=
  if 0 <=? k then firstn (Z.to_nat k) l
  else firstn (length l - Z.to_nat (- k))%nat l.

(** [n.bit_length()]: the number of binary digits of [abs n]. *)
Definition bit_length (n : Z) : nat :=
  match n with
  | Z0 => 0%nat
  | Zpos p | Zneg p => Pos.size_nat p
  end.

(** A key of the dictionary of counts: one character per qubit, ['1'] as
    [true] and ['0'] as [false], in the order the string is written. *)
Abbreviation bitstring := (list bool).

Definition binary_value (key : bitstring) : Z :=
  fold_left (fun acc (bit : bool) => 2 * acc + Z.b2z bit) key 0.

(** [int(key, 2)]: the empty string is not a number. *)
Definition int2 (key : bitstring) : option Z :=
  match key with
  | [] => None
  | _ => Some (binary_value key)
  end.

(** ** The world outside the engine *)

Inductive Key : Type := K_r | K_q | K_UP | K_DOWN | K_LEFT | K_RIGHT | K_other.

(** An event of the queue by its type: [QUIT], [KEYDOWN] with its key, or
    any other type (key releases, mouse motion, ...). *)
Inductive Event : Type := QUIT | KEYDOWN (key : Key) | OTHER.

Record World : Type := mkWorld {
  qbits : list bool;          (* coin flips the simulator will produce *)
  rng : list nat;             (* words Python's generator will produce *)
  polls : list (list Event);  (* what each pygame.event.get() will return *)
  shown : list string         (* end screens put on the display so far *)
}.

Definition set_qbits (w : World) (q : list bool) : World :=
  mkWorld q (rng w) (polls w) (shown w).
Definition set_rng (w : World) (r : list nat) : World :=
  mkWorld (qbits w) r (polls w) (shown w).
Definition set_polls (w : World) (p : list (list Event)) : World :=
  mkWorld (qbits w) (rng w) p (shown w).
Definition set_shown (w : World) (s : list string) : World :=
  mkWorld (qbits w) (rng w) (polls w) s.

(** How a call ends: with a value, with an exception, with [exit()], or
    not within the script of the world ([Starved]: the code was still
    drawing or polling when the script ran out). *)
Inductive res (A : Type) : Type :=
  | Val (a : A)
  | Exc (e : exn)
  | SysExit
  | Starved.
Arguments Val {A} a.
Arguments Exc {A} e.
Arguments SysExit {A}.
Arguments Starved {A}.

Definition M (A : Type) : Type := World -> res A * World.

Definition ret {A : Type} (a : A) : M A := fun w => (Val a, w).

Definition bind {A B : Type} (m : M A) (k : A -> M B) : M B :=
  fun w =>
    match m w with
    | (Val a, w') => k a w'
    | (Exc e, w') => (Exc e, w')
    | (SysExit, w') => (SysExit, w')
    | (Starved, w') => (Starved, w')
    end.

Definition raise {A : Type} (e : exn) : M A := fun w => (Exc e, w).
Definition sys_exit {A : Type} : M A := fun w => (SysExit, w).
Definition starve {A : Type} : M A := fun w => (Starved, w).

(** An operation that raises [e] where the pure model says [None]. *)
Definition orraise {A : Type} (e : exn) (o : option A) : M A :=
  match o with
  | Some a => ret a
  | None => raise e
  end.

Declare Scope engine_scope.
Delimit Scope engine_scope with engine.
Notation "x <- m ;; k" := (bind m (fun x => k))
  (at level 100, m at next level, right associativity) : engine_scope.
Open Scope engine_scope.

(** ** Entropy source *)

(** [_q_backend.run(qc, shots=1)] for the circuit that puts [n_qubits]
    qubits in superposition and measures them all: the single key of the
    counts, [n_qubits] characters, one coin flip each. *)
Definition measure_all (n_qubits : nat) : M bitstring :=
  fun w =>
    if (length (qbits w) <? n_qubits)%nat then (Starved, w)
    else (Val (firstn n_qubits (qbits w)),
          set_qbits w (skipn n_qubits (qbits w))).

(** The [while True] loop of [quantum_random_int].  One iteration reads
    at least one coin (a circuit without qubits ends in [int('', 2)]), so
    [fuel] above the number of coins left is never used up. *)
Fixpoint quantum_random_int_loop (fuel : nat) (max_value : Z) (n_qubits : nat)
  : M Z :=
  match fuel with
  | O => starve
  | S fuel' =>
      key <- measure_all n_qubits ;;
      value <- orraise ValueError (int2 key) ;;
      if value <? max_value then ret value
      else quantum_random_int_loop fuel' max_value n_qubits
  end.

Definition quantum_random_int (max_value : Z) : M Z :=
  fun w =>
    quantum_random_int_loop (S (length (qbits w))) max_value
      (bit_length max_value) w.

(** [quantum_random_int_batch], from the dictionary [counts] that the one
    run with [shots=batch_size] returned, in its iteration order: keys are
    outcomes, values the number of shots that gave them.  [None] stands
    for the [ValueError] of [int]; [batch_step] is the body of
    [for key in counts]. *)
Definition batch_step (max_value : Z) (acc : option (list Z))
  (entry : bitstring * nat) : option (list Z) :=
  match acc with
  | None => None
  | Some values =>
      match int2 (fst entry) with
      | None => None
      | Some value =>
          if value <? max_value
          then Some (values ++ repeat value (snd entry))
          else Some values
      end
  end.

Definition quantum_random_int_batch (max_value : Z) (batch_size : Z)
  (counts : list (bitstring * nat)) : option (list Z) :=
  match fold_left (batch_step max_value) counts (Some []) with
  | Some values => Some (slice_to values batch_size)
  | None => None
  end.

(** ** Maze generation *)

Abbreviation Grid := (list (list bool)).

(** The body of [for y in range(size)]: one measurement of [size] qubits
    per row; cell [x] of the row is [bit == '1'] for character [x] of the
    reversed key, which on characters coded as booleans is the character
    itself. *)
Fixpoint maze_rows (rows : nat) (size : nat) : M Grid :=
  match rows with
  | O => ret []
  | S rows' =>
      bits <- measure_all size ;;
      let row := map (fun bit : bool => bit) (rev bits) in
      grid <- maze_rows rows' size ;;
      ret (row :: grid)
  end.

Definition quantum_maze_visibility (size : Z) (start : pos) (goal : option pos)
  : M Grid :=
  let goal := match goal with
              | None => (size / 2, size / 2)
              | Some g => g
              end in
  grid <- maze_rows (Z.to_nat size) (Z.to_nat size) ;;
  let (sx, sy) := start in
  let (gx, gy) := goal in
  grid <- orraise IndexError (setitem2 grid sy sx true) ;;
  grid <- orraise IndexError (setitem2 grid gy gx true) ;;
  ret grid.

(** ** Entangled movement *)

Definition entangled_move (pos1 pos2 move : pos) (grid_size : Z) : pos * pos :=
  let (x1, y1) := pos1 in
  let (x2, y2) := pos2 in
  let (dx, dy) := move in
  let new_pos1 := (Z.max 0 (Z.min (grid_size - 1) (x1 + dx)),
                   Z.max 0 (Z.min (grid_size - 1) (y1 + dy))) in
  let new_pos2 := (Z.max 0 (Z.min (grid_size - 1) (x2 - dx)),
                   Z.max 0 (Z.min (grid_size - 1) (y2 - dy))) in
  (new_pos1, new_pos2).

(** ** The game object *)

(** The attributes of [QuantumAdventureGame] the engine reads and writes
    (the display, the clock and the cell geometry belong to rendering). *)
Record Game : Type := mkGame {
  grid_size : Z;
  enemy_move_delay : Z;
  enemy_move_counter : Z;
  goal : pos;
  maze : Grid;
  player1_pos : pos;
  player2_pos : pos;
  enemies : list pos;
  running : bool
}.

Definition set_enemy_move_counter (g : Game) (c : Z) : Game :=
  mkGame (grid_size g) (enemy_move_delay g) c (goal g) (maze g)
    (player1_pos g) (player2_pos g) (enemies g) (running g).
Definition set_goal (g : Game) (p : pos) : Game :=
  mkGame (grid_size g) (enemy_move_delay g) (enemy_move_counter g) p (maze g)
    (player1_pos g) (player2_pos g) (enemies g) (running g).
Definition set_maze (g : Game) (m : Grid) : Game :=
  mkGame (grid_size g) (enemy_move_delay g) (enemy_move_counter g) (goal g) m
    (player1_pos g) (player2_pos g) (enemies g) (running g).
Definition set_player1_pos (g : Game) (p : pos) : Game :=
  mkGame (grid_size g) (enemy_move_delay g) (enemy_move_counter g) (goal g)
    (maze g) p (player2_pos g) (enemies g) (running g).
Definition set_player2_pos (g : Game) (p : pos) : Game :=
  mkGame (grid_size g) (enemy_move_delay g) (enemy_move_counter g) (goal g)
    (maze g) (player1_pos g) p (enemies g) (running g).
Definition set_enemies (g : Game) (l : list pos) : Game :=
  mkGame (grid_size g) (enemy_move_delay g) (enemy_move_counter g) (goal g)
    (maze g) (player1_pos g) (player2_pos g) l (running g).
Definition set_running (g : Game) (b : bool) : Game :=
  mkGame (grid_size g) (enemy_move_delay g) (enemy_move_counter g) (goal g)
    (maze g) (player1_pos g) (player2_pos g) (enemies g) b.

(** The [while True] loop of [random_empty_cell].  An iteration that does
    not raise reads at least two coins. *)
Fixpoint random_empty_cell_loop (fuel : nat) (g : Game) : M pos :=
  match fuel with
  | O => starve
  | S fuel' =>
      x <- quantum_random_int (grid_size g) ;;
      y <- quantum_random_int (grid_size g) ;;
      cell <- orraise IndexError (getitem2 (maze g) y x) ;;
      if cell && negb (pos_in (x, y) [player1_pos g; player2_pos g; goal g])
      then ret (x, y)
      else random_empty_cell_loop fuel' g
  end.

Definition random_empty_cell (g : Game) : M pos :=
  fun w => random_empty_cell_loop (S (length (qbits w))) g w.

(** [[m() for _ in range(n)]]. *)
Fixpoint comprehension {A : Type} (n : nat) (m : M A) : M (list A) :=
  match n with
  | O => ret []
  | S n' => a <- m ;; l <- comprehension n' m ;; ret (a :: l)
  end.

Definition reset_game (g : Game) : M Game :=
  let g := set_goal g (grid_size g / 2, grid_size g / 2) in
  m <- quantum_maze_visibility (grid_size g) (0, 0) (Some (goal g)) ;;
  let g := set_maze g m in
  let g := set_player1_pos g (0, 0) in
  let g := set_player2_pos g (grid_size g - 1, grid_size g - 1) in
  es <- comprehension 3 (random_empty_cell g) ;;
  let g := set_enemies g es in
  ret (set_running g true).

(** The attributes [__init__] has set when it calls [reset_game].  Those
    that [reset_game] assigns do not exist yet; it reads none of them
    before assigning it, so the value they are given here is never looked
    at. *)
Definition fresh_game (grid_size : Z) : Game :=
  mkGame grid_size 5 0 (0, 0) [] (0, 0) (0, 0) [] false.

(** [QuantumAdventureGame(grid_size)]. *)
Definition init (grid_size : Z) : M Game := reset_game (fresh_game grid_size).

(** ** Moving the players *)

(** [is_valid]; [None] stands for [IndexError].  [and] does not evaluate
    its right operand when the left one is false. *)
Definition is_valid (g : Game) (p : pos) : option bool :=
  let (x, y) := p in
  if (0 <=? x) && (x <? grid_size g) && ((0 <=? y) && (y <? grid_size g))
  then getitem2 (maze g) y x
  else Some false.

Definition move_players (g : Game) (move : pos) : M Game :=
  let (new_pos1, new_pos2) :=
    entangled_move (player1_pos g) (player2_pos g) move (grid_size g) in
  v1 <- orraise IndexError (is_valid g new_pos1) ;;
  let g := if v1 then set_player1_pos g new_pos1 else g in
  v2 <- orraise IndexError (is_valid g new_pos2) ;;
  let g := if v2 then set_player2_pos g new_pos2 else g in
  ret g.

(** ** Adversaries *)

(** [random.choice(seq)] is [seq[randbelow(len(seq))]]; the next word of
    the generator is reduced below the length. *)
Definition random_choice {A : Type} (seq : list A) : M A :=
  fun w =>
    match rng w with
    | [] => (Starved, w)
    | r :: rest =>
        match seq !! (r mod length seq)%nat with
        | Some a => (Val a, set_rng w rest)
        | None => (Exc IndexError, set_rng w rest)
        end
    end.

Definition enemy_moves : list pos := [(0, 1); (0, -1); (1, 0); (-1, 0); (0, 0)].

(** The body of [for ex, ey in self.enemies], giving the position that is
    appended to [new_enemies]. *)
Definition enemy_step (g : Game) (e : pos) : M pos :=
  let (ex, ey) := e in
  move <- random_choice enemy_moves ;;
  let nx := ex + fst move in
  let ny := ey + snd move in
  if (0 <=? nx) && (nx <? grid_size g) && ((0 <=? ny) && (ny <? grid_size g))
  then
    cell <- orraise IndexError (getitem2 (maze g) ny nx) ;;
    if cell then ret (nx, ny) else ret (ex, ey)
  else ret (ex, ey).

Fixpoint for_each {A B : Type} (f : A -> M B) (l : list A) : M (list B) :=
  match l with
  | [] => ret []
  | a :: l' => b <- f a ;; bs <- for_each f l' ;; ret (b :: bs)
  end.

Definition update (g : Game) : M Game :=
  let g := set_enemy_move_counter g (enemy_move_counter g + 1) in
  if enemy_move_delay g <=? enemy_move_counter g then
    let g := set_enemy_move_counter g 0 in
    new_enemies <- for_each (enemy_step g) (enemies g) ;;
    ret (set_enemies g new_enemies)
  else ret g.

(** ** Input, end screens and the win/loss check *)

Definition win_message : string := "You win! Press R to restart or Q to quit.".
Definition lose_message : string := "Game Over! Press R to restart or Q to quit.".

(** The body of [for event in pygame.event.get()] in [show_end_screen],
    carrying the game and the flag [waiting].  [pygame.quit(); exit()]
    ends the process; after [K_r] the loop goes on with the events left
    in the same poll. *)
Fixpoint end_screen_events (evs : list Event) (g : Game) (waiting : bool)
  : M (Game * bool) :=
  match evs with
  | [] => ret (g, waiting)
  | QUIT :: _ => sys_exit
  | KEYDOWN K_r :: evs' =>
      g' <- reset_game g ;; end_screen_events evs' g' false
  | KEYDOWN K_q :: _ => sys_exit
  | KEYDOWN _ :: evs' => end_screen_events evs' g waiting
  | OTHER :: evs' => end_screen_events evs' g waiting
  end.

(** The [while waiting] loop over the polls still to come; with no event
    left to arrive it polls for ever. *)
Fixpoint end_screen_wait (script : list (list Event)) (g : Game) : M Game :=
  match script with
  | [] => starve
  | evs :: script' =>
      fun w =>
        bind (end_screen_events evs g true)
          (fun r => if snd r then end_screen_wait script' (fst r)
                    else ret (fst r))
          (set_polls w script')
  end.

Definition show_end_screen (g : Game) (message : string) : M Game :=
  fun w => end_screen_wait (polls w) g (set_shown w (shown w ++ [message])).

Definition key_move (k : Key) : option pos :=
  match k with
  | K_UP => Some (0, -1)
  | K_DOWN => Some (0, 1)
  | K_LEFT => Some (-1, 0)
  | K_RIGHT => Some (1, 0)
  | _ => None
  end.

(** The body of [for event in pygame.event.get()] in [handle_input]. *)
Fixpoint handle_events (evs : list Event) (g : Game) : M Game :=
  match evs with
  | [] => ret g
  | QUIT :: evs' => handle_events evs' (set_running g false)
  | KEYDOWN K_r :: _ => reset_game g
  | KEYDOWN k :: evs' =>
      match key_move k with
      | Some move => g' <- move_players g move ;; handle_events evs' g'
      | None => handle_events evs' g
      end
  | OTHER :: evs' => handle_events evs' g
  end.

(** [pygame.event.get()]: the next poll, empty once nothing is to come. *)
Definition event_get : M (list Event) :=
  fun w =>
    match polls w with
    | [] => (Val [], w)
    | evs :: script' => (Val evs, set_polls w script')
    end.

Definition handle_input (g : Game) : M Game :=
  evs <- event_get ;; handle_events evs g.

Definition win_condition (g : Game) : bool :=
  pos_eqb (player1_pos g) (goal g) || pos_eqb (player2_pos g) (goal g).

Definition loss_condition (g : Game) : bool :=
  pos_in (player1_pos g) (enemies g) || pos_in (player2_pos g) (enemies g).

Definition check_game_over (g : Game) : M Game :=
  g <- (if win_condition g
        then g' <- show_end_screen g win_message ;; ret (set_running g' false)
        else ret g) ;;
  if loss_condition g
  then g' <- show_end_screen g lose_message ;; ret (set_running g' false)
  else ret g.

(** One round of the [while self.running] loop of [run] (drawing and the
    clock left out). *)
Definition tick (g : Game) : M Game :=
  g <- handle_input g ;;
  g <- update g ;;
  check_game_over g.

(** The end screens a call put on the display. *)
Definition screens_since {A : Type} (w : World) (r : res A * World) : list string :=
  skipn (length (shown w)) (shown (snd r)).

(** States of an episode: the constructor's result and whatever the
    methods the main loop calls return from there. *)
Inductive reachable : Game -> Prop :=
  | reach_init n w g w' :
      init n w = (Val g, w') -> reachable g
  | reach_handle_input g w g' w' :
      reachable g -> handle_input g w = (Val g', w') -> reachable g'
  | reach_update g w g' w' :
      reachable g -> update g w = (Val g', w') -> reachable g'
  | reach_check_game_over g w g' w' :
      reachable g -> check_game_over g w = (Val g', w') -> reachable g'.

(** ** Window geometry and drawing *)

(** [min(60, max(20, 600 // grid_size))] of [__init__]; [None] stands for
    the [ZeroDivisionError] of [600 // 0]. *)
Definition cell_size_of (grid_size : Z) : option Z :=
  if grid_size =? 0 then None
  else Some (Z.min 60 (Z.max 20 (600 / grid_size))).

(** What [draw] reads besides the game: [self.cell_size] and the size of
    the surface [self.screen]. *)
Record Display : Type := mkDisplay {
  cell_size : Z;
  screen_width : Z;
  screen_height : Z
}.

(** The display [__init__] sets up: [pygame.display.set_mode] is asked for
    a window of [grid_size * cell_size] pixels each way. *)
Definition display_of (grid_size : Z) : option Display :=
  match cell_size_of grid_size with
  | Some c => Some (mkDisplay c (grid_size * c) (grid_size * c))
  | None => None
  end.

Abbreviation color := (Z * Z * Z)%type.

(** The calls [draw] makes on the display, in order. *)
Inductive DrawCmd : Type :=
  | Fill (c : color)
  | Rect (c : color) (x y w h : Z)
  | Flip.

(** [range(n)]. *)
Definition range (n : Z) : list Z := map Z.of_nat (seq 0 (Z.to_nat n)).

Definition cell_rect (d : Display) (offset_x offset_y : Z) (c : color) (p : pos)
  : DrawCmd :=
  Rect c (offset_x + fst p * cell_size d) (offset_y + snd p * cell_size d)
    (cell_size d) (cell_size d).

(** The body of [for x in range(self.grid_size)] in [draw], over the [x]
    still to come; [None] stands for [IndexError]. *)
Fixpoint draw_cells (g : Game) (d : Display) (offset_x offset_y : Z) (y : Z)
  (xs : list Z) : option (list DrawCmd) :=
  match xs with
  | [] => Some []
  | x :: xs' =>
      match getitem2 (maze g) y x with
      | None => None
      | Some cell =>
          let c := if negb cell then (50, 50, 50) else (200, 200, 200) in
          match draw_cells g d offset_x offset_y y xs' with
          | None => None
          | Some cmds => Some (cell_rect d offset_x offset_y c (x, y) :: cmds)
          end
      end
  end.

(** The body of [for y in range(self.grid_size)] in [draw]. *)
Fixpoint draw_rows (g : Game) (d : Display) (offset_x offset_y : Z)
  (ys : list Z) : option (list DrawCmd) :=
  match ys with
  | [] => Some []
  | y :: ys' =>
      match draw_cells g d offset_x offset_y y (range (grid_size g)) with
      | None => None
      | Some row =>
          match draw_rows g d offset_x offset_y ys' with
          | None => None
          | Some cmds => Some (row ++ cmds)
          end
      end
  end.

Definition draw (g : Game) (d : Display) : option (list DrawCmd) :=
  let offset_x := (screen_width d - grid_size g * cell_size d) / 2 in
  let offset_y := (screen_height d - grid_size g * cell_size d) / 2 in
  match draw_rows g d offset_x offset_y (range (grid_size g)) with
  | None => None
  | Some cells =>
      Some ([Fill (0, 0, 0)] ++ cells ++
            [cell_rect d offset_x offset_y (0, 255, 0) (goal g);
             cell_rect d offset_x offset_y (0, 0, 255) (player1_pos g);
             cell_rect d offset_x offset_y (255, 0, 255) (player2_pos g)] ++
            map (cell_rect d offset_x offset_y (255, 0, 0)) (enemies g) ++
            [Flip])
  end.

(** ** The instructions screen and the main loop *)

(** The body of [for event in pygame.event.get()] in [show_instructions],
    carrying the flag [waiting]; a key press does not leave the [for]
    loop. *)
Fixpoint instruction_events (evs : list Event) (waiting : bool) : M bool :=
  match evs with
  | [] => ret waiting
  | QUIT :: _ => sys_exit
  | KEYDOWN _ :: evs' => instruction_events evs' false
  | OTHER :: evs' => instruction_events evs' waiting
  end.

(** The [while waiting] loop of [show_instructions] over the polls still
    to come. *)
Fixpoint instructions_wait (script : list (list Event)) : M unit :=
  match script with
  | [] => starve
  | evs :: script' =>
      fun w =>
        bind (instruction_events evs true)
          (fun waiting => if waiting then instructions_wait script' else ret tt)
          (set_polls w script')
  end.

Definition show_instructions : M unit :=
  fun w => instructions_wait (polls w) w.

(** The [while self.running] loop of [run], for at most [frames] rounds
    of the clock; still running after that many, it has not returned. *)
Fixpoint run_loop (frames : nat) (d : Display) (g : Game) : M Game :=
  if running g then
    match frames with
    | O => starve
    | S frames' =>
        g <- handle_input g ;;
        g <- update g ;;
        _ <- orraise IndexError (draw g d) ;;
        g <- check_game_over g ;;
        run_loop frames' d g
    end
  else ret g.

Definition run (frames : nat) (d : Display) (g : Game) : M Game :=
  _ <- show_instructions ;; run_loop frames d g.

(** [k] calls of [update] in a row. *)
Fixpoint updates (k : nat) (g : Game) : M Game :=
  match k with
  | O => ret g
  | S k' => g <- update g ;; updates k' g
  end.

(** ** Vocabulary of the specification *)

(** Clamping a coordinate to [[0, N-1]], as the specification words it. *)
Definition clamp (N v : Z) : Z :=
  if v <? 0 then 0 else if N - 1 <? v then N - 1 else v.

Definition in_bounds (N : Z) (p : pos) : Prop :=
  0 <= fst p < N /\ 0 <= snd p < N.

(** [open[p.y][p.x] == true]. *)
Definition is_open (m : Grid) (p : pos) : Prop :=
  getitem2 m (snd p) (fst p) = Some true.

(** The goal the maze generator works with: the one given, or the centre. *)
Definition goal_or_centre (size : Z) (goal : option pos) : pos :=
  match goal with
  | Some g => g
  | None => (size / 2, size / 2)
  end.

(** One step up, down, left or right. *)
Definition adjacent (p q : pos) : Prop :=
  q = (fst p, snd p + 1) \/ q = (fst p, snd p - 1) \/
  q = (fst p + 1, snd p) \/ q = (fst p - 1, snd p).

(** An [N] by [N] grid. *)
Definition square (N : Z) (m : Grid) : Prop :=
  length m = Z.to_nat N /\ Forall (fun row => length row = Z.to_nat N) m.

(** The draws one call of [quantum_random_int] goes through: keys of
    [max_value.bit_length()] characters, all out of range but the last. *)
Definition rejection_run (max_value : Z) (rejected : list bitstring)
  (accepted : bitstring) : Prop :=
  Forall (fun key => length key = bit_length max_value /\
                     max_value <= binary_value key) rejected /\
  length accepted = bit_length max_value /\
  binary_value accepted < max_value.

(** The values one entry of the counts contributes to a batch: its
    outcome, as often as it was counted, when it is in range. *)
Definition survivors (max_value : Z) (entry : bitstring * nat) : list Z :=
  if binary_value (fst entry) <? max_value
  then repeat (binary_value (fst entry)) (snd entry) else [].

(** What [reset_game] leaves behind, adversaries apart. *)
Definition board_reset (N : Z) (g : Game) : Prop :=
  grid_size g = N /\ goal g = (N / 2, N / 2) /\
  is_open (maze g) (0, 0) /\ is_open (maze g) (goal g) /\
  player1_pos g = (0, 0) /\ player2_pos g = (N - 1, N - 1).

(** An adversary on an open cell that is none of the players' cells nor
    the goal. *)
Definition well_placed (g : Game) (e : pos) : Prop :=
  is_open (maze g) e /\
  e <> player1_pos g /\ e <> player2_pos g /\ e <> goal g.

(** The state [reset_game] returns: the board of the specification, an
    [N] by [N] maze, three well placed adversaries, the counters as they
    were. *)
Definition reset_state (g g' : Game) : Prop :=
  board_reset (grid_size g) g' /\ square (grid_size g) (maze g') /\
  length (enemies g') = 3%nat /\
  Forall (fun e => well_placed g' e /\ in_bounds (grid_size g) e) (enemies g') /\
  enemy_move_delay g' = enemy_move_delay g /\
  enemy_move_counter g' = enemy_move_counter g /\ running g' = true.

(** A cell a player or an adversary may step on. *)
Definition passable (g : Game) (p : pos) : Prop :=
  in_bounds (grid_size g) p /\ is_open (maze g) p.

(** What one advance does to one adversary of [g]. *)
Definition adversary_step (g : Game) (e e' : pos) : Prop :=
  e' = e \/ (adjacent e e' /\ passable g e').

(** What holds of the maze and the adversaries all through an episode. *)
Definition episode_invariant (g : Game) : Prop :=
  square (grid_size g) (maze g) /\ Forall (passable g) (enemies g).

(** Two states with the same board: size, maze, goal and adversaries. *)
Definition same_board (g g' : Game) : Prop :=
  grid_size g' = grid_size g /\ maze g' = maze g /\ goal g' = goal g /\
  enemies g' = enemies g.

(** *** A script of coins for [reset_game]

    Row 0 of the maze drawn all open and every other row all closed; then,
    three times over, the keys of [x = 1] and [y = 0]. *)
Definition key_one (n_qubits : nat) : bitstring :=
  replicate (n_qubits - 1) false ++ [true].

Definition key_zero (n_qubits : nat) : bitstring := replicate n_qubits false.

Definition corner_rows (n : nat) : list bitstring :=
  replicate n true :: replicate (n - 1) (replicate n false).

Definition corner_coins (N : Z) : list bool :=
  concat (corner_rows (Z.to_nat N)) ++
  concat (replicate 3 (key_one (bit_length N) ++ key_zero (bit_length N))).

(** C2 as it is claimed: the three adversaries on distinct cells too. *)
Definition reset_claimed (g g' : Game) : Prop :=
  board_reset (grid_size g) g' /\
  length (enemies g') = 3%nat /\
  NoDup (enemies g') /\
  Forall (well_placed g') (enemies g').

(** *** Example inputs *)

Definition coins_world (coins : list bool) : World := mkWorld coins [] [] [].

(** The game of size 10 that [corner_coins] give. *)
Definition corner_game : Game :=
  Eval vm_compute in
    match fst (init 10 (coins_world (corner_coins 10))) with
    | Val g => g
    | _ => fresh_game 10
    end.

(** Player 1 on the goal while player 2 shares a cell with an adversary. *)
Definition won_and_caught : Game :=
  mkGame 10 5 0 (5, 5) (maze corner_game) (5, 5) (4, 4)
    [(4, 4); (1, 0); (1, 0)] true.

(** The player answers the end screen with R; the coins are there for the
    restart. *)
Definition restart_world : World :=
  mkWorld (corner_coins 10) [] [[OTHER; KEYDOWN K_other]; []; [KEYDOWN K_r]] [].

(** Outcomes 12, 3 and 9 of four qubits, counted once, twice and twice. *)
Definition five_shots : list (bitstring * nat) :=
  [([true; true; false; false], 1%nat);
   ([false; false; true; true], 2%nat);
   ([true; false; false; true], 2%nat)].

(** The draws 12 and 15, rejected below 10, and then 7. *)
Definition three_draws : list bool :=
  [true; true; false; false] ++ [true; true; true; true] ++
  [false; true; true; true].

(** *** Vocabulary for the rest of the engine *)

(** The key of [n_qubits] characters that reads as [v] in binary. *)
Fixpoint key_of (n_qubits : nat) (v : Z) : bitstring :=
  match n_qubits with
  | O => []
  | S n' => key_of n' (v / 2) ++ [Z.odd v]
  end.

(** The shots of a dictionary of counts, and those among them whose
    outcome is out of range. *)
Definition shots (counts : list (bitstring * nat)) : nat :=
  fold_right (fun entry acc => (snd entry + acc)%nat) 0%nat counts.

Definition rejected_shots (max_value : Z) (counts : list (bitstring * nat))
  : nat :=
  fold_right
    (fun entry acc =>
       if binary_value (fst entry) <? max_value then acc
       else (snd entry + acc)%nat) 0%nat counts.

(** The index [i] of a Python sequence of length [len], counted from the
    front. *)
Definition norm_index (len i : Z) : Z := if i <? 0 then len + i else i.

(** An index Python accepts for a sequence of length [len]. *)
Definition index_ok (len i : Z) : Prop := - len <= i < len.

(** The colour a call leaves on the pixel [(px, py)], if it touches it. *)
Definition paints (cmd : DrawCmd) (px py : Z) : option color :=
  match cmd with
  | Fill c => Some c
  | Rect c x y w h =>
      if (x <=? px) && (px <? x + w) && ((y <=? py) && (py <? y + h))
      then Some c else None
  | Flip => None
  end.

(** The colour of a pixel after a list of calls, on top of [under]. *)
Definition pixel_over (under : option color) (cmds : list DrawCmd) (px py : Z)
  : option color :=
  fold_left
    (fun acc cmd =>
       match paints cmd px py with
       | Some c => Some c
       | None => acc
       end) cmds under.

(** The colour [draw] means a cell to show: adversaries over player 2 over
    player 1 over the goal over the maze. *)
Definition cell_colour (g : Game) (p : pos) (open : bool) : color :=
  if pos_in p (enemies g) then (255, 0, 0)
  else if pos_eqb p (player2_pos g) then (255, 0, 255)
  else if pos_eqb p (player1_pos g) then (0, 0, 255)
  else if pos_eqb p (goal g) then (0, 255, 0)
  else if open then (200, 200, 200) else (50, 50, 50).

(** What every state of an episode satisfies, besides [episode_invariant]. *)
Definition board_invariant (g : Game) : Prop :=
  2 <= grid_size g /\
  goal g = (grid_size g / 2, grid_size g / 2) /\
  is_open (maze g) (0, 0) /\ is_open (maze g) (goal g) /\
  length (enemies g) = 3%nat.

Definition timer_invariant (g : Game) : Prop :=
  enemy_move_delay g = 5 /\ 0 <= enemy_move_counter g < 5.

Definition players_invariant (g : Game) : Prop :=
  passable g (player1_pos g) /\
  in_bounds (grid_size g) (player2_pos g) /\
  (player2_pos g = (grid_size g - 1, grid_size g - 1) \/
   is_open (maze g) (player2_pos g)).

Definition full_invariant (g : Game) : Prop :=
  episode_invariant g /\ board_invariant g /\ timer_invariant g /\
  players_invariant g.

(** The state of [g] with the board of [fresh]: everything but the timer
    of the adversaries. *)
Definition with_timer_of (g fresh : Game) : Game :=
  mkGame (grid_size fresh) (enemy_move_delay g) (enemy_move_counter g)
    (goal fresh) (maze fresh) (player1_pos fresh) (player2_pos fresh)
    (enemies fresh) (running fresh).

(** A call of [draw] that stays within the surface of the display. *)
Definition inside (d : Display) (cmd : DrawCmd) : Prop :=
  match cmd with
  | Rect _ x y w h =>
      0 <= x /\ x + w <= screen_width d /\ 0 <= y /\ y + h <= screen_height d
  | _ => True
  end.

(** A call that, when it returns, has read at least [n] coins and changed
    nothing else of the world. *)
Definition draws_at_least {A : Type} (n : nat) (m : M A) : Prop :=
  forall w a w',
    m w = (Val a, w') ->
    exists used,
      qbits w = used ++ qbits w' /\ (n <= length used)%nat /\
      w' = set_qbits w (qbits w').

(** Whether a poll holds a [QUIT] event, a key press, a press of a given
    key. *)
Definition has_quit (evs : list Event) : bool :=
  existsb (fun ev => match ev with QUIT => true | _ => false end) evs.

Definition has_keydown (evs : list Event) : bool :=
  existsb (fun ev => match ev with KEYDOWN _ => true | _ => false end) evs.

Definition has_key (k : Key) (evs : list Event) : bool :=
  existsb (fun ev => match ev, k with
                     | KEYDOWN K_r, K_r | KEYDOWN K_q, K_q => true
                     | _, _ => false
                     end) evs.

(** A poll the instructions screen does not react to. *)
Definition silent (evs : list Event) : Prop :=
  has_quit evs = false /\ has_keydown evs = false.

(** A poll the end screen does not react to. *)
Definition ignored (evs : list Event) : Prop :=
  has_quit evs = false /\ has_key K_q evs = false /\ has_key K_r evs = false.

(** A postcondition on the value a call returns. *)
Definition post {A : Type} (m : M A) (Q : A -> Prop) : Prop :=
  forall w a w', m w = (Val a, w') -> Q a.

(** A call that leaves the display as it was, however it ends. *)
Definition keeps_shown {A : Type} (m : M A) : Prop :=
  forall w, shown (snd (m w)) = shown w.

(** ** The monad *)

Lemma bind_Val {A B : Type} (m : M A) (k : A -> M B) w b w' :
  bind m k w = (Val b, w') ->
  exists a w1, m w = (Val a, w1) /\ k a w1 = (Val b, w').
Proof.
  unfold bind. destruct (m w) as [[a| | |] w1]; intros H; try discriminate.
  exists a, w1. split; [reflexivity | exact H].
Qed.

Lemma orraise_Val {A : Type} (e : exn) (o : option A) w a w' :
  orraise e o w = (Val a, w') -> o = Some a /\ w' = w.
Proof.
  destruct o as [a0|]; cbn; intros H; inversion H; subst; auto.
Qed.

Lemma ret_Val {A : Type} (a b : A) w w' :
  ret a w = (Val b, w') -> a = b /\ w' = w.
Proof. unfold ret. intros H. inversion H. auto. Qed.

Tactic Notation "inv_bind" hyp(H) "as" ident(a) ident(w) ident(Ha) :=
  apply bind_Val in H; destruct H as (a & w & Ha & H).

Lemma post_ret {A : Type} (a : A) (Q : A -> Prop) : Q a -> post (ret a) Q.
Proof. intros HQ w b w' H. apply ret_Val in H as [<- _]. exact HQ. Qed.

Lemma post_bind {A B : Type} (m : M A) (k : A -> M B) (Q : A -> Prop)
  (R : B -> Prop) :
  post m Q -> (forall a, Q a -> post (k a) R) -> post (bind m k) R.
Proof.
  intros Hm Hk w b w' H. inv_bind H as a w1 Ha.
  eapply Hk; [eapply Hm|]; eassumption.
Qed.

Lemma post_orraise {A : Type} (e : exn) (o : option A) (Q : A -> Prop) :
  (forall a, o = Some a -> Q a) -> post (orraise e o) Q.
Proof. intros HQ w a w' H. apply orraise_Val in H as [-> _]. auto. Qed.

Lemma post_weaken {A : Type} (m : M A) (Q R : A -> Prop) :
  post m Q -> (forall a, Q a -> R a) -> post m R.
Proof. intros Hm HQR w a w' H. eauto. Qed.

Lemma keeps_shown_ret {A : Type} (a : A) : keeps_shown (ret a).
Proof. intros w. reflexivity. Qed.

Lemma keeps_shown_bind {A B : Type} (m : M A) (k : A -> M B) :
  keeps_shown m -> (forall a, keeps_shown (k a)) -> keeps_shown (bind m k).
Proof.
  intros Hm Hk w. unfold bind. specialize (Hm w).
  destruct (m w) as [[a| | |] w1]; cbn in *; try assumption.
  rewrite Hk. assumption.
Qed.

Lemma keeps_shown_orraise {A : Type} (e : exn) (o : option A) :
  keeps_shown (orraise e o).
Proof. intros w. destruct o; reflexivity. Qed.

Lemma keeps_shown_measure_all n : keeps_shown (measure_all n).
Proof.
  intros w. unfold measure_all.
  destruct (length (qbits w) <? n)%nat; reflexivity.
Qed.

Lemma keeps_shown_starve {A : Type} : keeps_shown (@starve A).
Proof. intros w. reflexivity. Qed.

Lemma keeps_shown_sys_exit {A : Type} : keeps_shown (@sys_exit A).
Proof. intros w. reflexivity. Qed.

(** The calls that leave the display alone, for [auto with frame]. *)
Create HintDb frame.
#[local] Hint Resolve keeps_shown_ret keeps_shown_orraise keeps_shown_measure_all
  keeps_shown_starve keeps_shown_sys_exit keeps_shown_bind : frame.
#[local] Hint Extern 2 (keeps_shown (if ?b then _ else _)) => destruct b : frame.

(** ** Python indexing *)

Lemma py_index_lt len i k : py_index len i = Some k -> (k < len)%nat.
Proof.
  unfold py_index.
  destruct ((0 <=? i) && (i <? Z.of_nat len)) eqn:E1.
  - intros [= <-]. apply andb_true_iff in E1 as [H1 H2]. lia.
  - destruct ((- Z.of_nat len <=? i) && (i <? 0)) eqn:E2; [|discriminate].
    intros [= <-]. apply andb_true_iff in E2 as [H1 H2]. lia.
Qed.

Lemma py_index_nonneg len i :
  0 <= i < Z.of_nat len -> py_index len i = Some (Z.to_nat i).
Proof.
  intros H. unfold py_index.
  replace ((0 <=? i) && (i <? Z.of_nat len)) with true; [reflexivity|].
  symmetry. apply andb_true_iff. lia.
Qed.

Lemma getitem_insert_same {A : Type} (l : list A) i k v :
  py_index (length l) i = Some k -> getitem (<[k := v]> l) i = Some v.
Proof.
  intros H. unfold getitem. rewrite length_insert, H.
  apply list_lookup_insert_eq. eapply py_index_lt; eassumption.
Qed.

Lemma setitem2_get_same {A : Type} (g g' : list (list A)) y x v :
  setitem2 g y x v = Some g' -> getitem2 g' y x = Some v.
Proof.
  unfold setitem2, getitem2, setitem.
  destruct (getitem g y) as [row|] eqn:Hrow; [|discriminate].
  destruct (py_index (length row) x) as [kx|] eqn:Hx; [|discriminate].
  unfold getitem in Hrow.
  destruct (py_index (length g) y) as [ky|] eqn:Hy; [|discriminate].
  intros [= <-]. rewrite (getitem_insert_same g y ky _ Hy).
  apply getitem_insert_same, Hx.
Qed.

Lemma setitem2_true_mono (g g' : Grid) y x y' x' :
  setitem2 g y x true = Some g' ->
  getitem2 g y' x' = Some true -> getitem2 g' y' x' = Some true.
Proof.
  unfold setitem2, getitem2, setitem, getitem.
  destruct (py_index (length g) y) as [ky|] eqn:Hy; cbv beta iota; [|discriminate].
  destruct (g !! ky) as [row|] eqn:Hrow; cbv beta iota; [|discriminate].
  destruct (py_index (length row) x) as [kx|] eqn:Hx; cbv beta iota; [|discriminate].
  intros [= <-]. rewrite length_insert.
  destruct (py_index (length g) y') as [ky'|] eqn:Hy'; cbv beta iota; [|discriminate].
  destruct (decide (ky = ky')) as [<-|Hne].
  - rewrite Hrow, list_lookup_insert_eq by (eapply py_index_lt; eassumption).
    rewrite length_insert.
    destruct (py_index (length row) x') as [kx'|] eqn:Hx'; cbv beta iota; [|discriminate].
    destruct (decide (kx = kx')) as [<-|Hnx].
    + intros _. apply list_lookup_insert_eq. eapply py_index_lt; eassumption.
    + rewrite list_lookup_insert_ne by assumption. trivial.
  - rewrite list_lookup_insert_ne by assumption. trivial.
Qed.

Lemma setitem2_square N (g g' : Grid) y x v :
  setitem2 g y x v = Some g' -> square N g -> square N g'.
Proof.
  unfold setitem2, setitem, getitem.
  destruct (py_index (length g) y) as [ky|] eqn:Hy; cbv beta iota; [|discriminate].
  destruct (g !! ky) as [row|] eqn:Hrow; cbv beta iota; [|discriminate].
  destruct (py_index (length row) x) as [kx|] eqn:Hx; cbv beta iota; [|discriminate].
  intros [= <-] [Hlen Hrows]. split.
  - rewrite length_insert. exact Hlen.
  - apply Forall_insert; [exact Hrows|].
    rewrite length_insert.
    rewrite Forall_lookup in Hrows. eapply Hrows. eassumption.
Qed.

Lemma getitem2_square N (g : Grid) x y :
  square N g -> 0 <= x < N -> 0 <= y < N -> exists c, getitem2 g y x = Some c.
Proof.
  intros [Hlen Hrows] Hx Hy. unfold getitem2, getitem.
  rewrite py_index_nonneg by lia.
  destruct (lookup_lt_is_Some_2 g (Z.to_nat y)) as [row Hrow]; [lia|].
  rewrite Hrow. rewrite Forall_lookup in Hrows.
  specialize (Hrows _ _ Hrow). cbn in Hrows.
  rewrite py_index_nonneg by lia.
  destruct (lookup_lt_is_Some_2 row (Z.to_nat x)) as [c Hc]; [lia|].
  exists c. exact Hc.
Qed.

Lemma setitem2_in_square N (g : Grid) x y v :
  square N g -> 0 <= x < N -> 0 <= y < N -> exists g', setitem2 g y x v = Some g'.
Proof.
  intros [Hlen Hrows] Hx Hy. unfold setitem2, setitem, getitem.
  rewrite py_index_nonneg by lia.
  destruct (lookup_lt_is_Some_2 g (Z.to_nat y)) as [row Hrow]; [lia|].
  rewrite Hrow. rewrite Forall_lookup in Hrows.
  specialize (Hrows _ _ Hrow). cbn in Hrows.
  rewrite py_index_nonneg by lia. eauto.
Qed.

Lemma pos_eqb_eq p q : pos_eqb p q = true <-> p = q.
Proof.
  destruct p as [a b], q as [c d]. unfold pos_eqb. cbn.
  rewrite andb_true_iff, !Z.eqb_eq. split.
  - intros [-> ->]. reflexivity.
  - intros [= -> ->]. auto.
Qed.

Lemma pos_in_false p l : pos_in p l = false <-> ~ In p l.
Proof.
  unfold pos_in. split.
  - intros H Hin. assert (existsb (pos_eqb p) l = true); [|congruence].
    apply existsb_exists. exists p. split; [exact Hin | apply pos_eqb_eq; reflexivity].
  - intros H. destruct (existsb (pos_eqb p) l) eqn:E; [|reflexivity].
    apply existsb_exists in E as (q & Hq & Heq). apply pos_eqb_eq in Heq.
    subst q. contradiction.
Qed.

(** ** Entangled movement *)

Lemma clamp_max_min N v : 1 <= N -> Z.max 0 (Z.min (N - 1) v) = clamp N v.
Proof.
  intros HN. unfold clamp.
  destruct (Z.ltb_spec v 0); [lia|].
  destruct (Z.ltb_spec (N - 1) v); lia.
Qed.

Lemma clamp_range N v : 1 <= N -> 0 <= clamp N v <= N - 1.
Proof.
  intros HN. unfold clamp.
  destruct (Z.ltb_spec v 0); [lia|].
  destruct (Z.ltb_spec (N - 1) v); lia.
Qed.

Lemma entangled_move_no_grid pos1 pos2 move N :
  N <= 0 -> entangled_move pos1 pos2 move N = ((0, 0), (0, 0)).
Proof.
  intros HN. destruct pos1 as [x1 y1], pos2 as [x2 y2], move as [dx dy].
  unfold entangled_move. repeat f_equal; lia.
Qed.

(** C4: on a grid of size [N >= 1] (the sizes for which [[0, N-1]] is a
    range), [entangled_move] adds the move to the first position and
    subtracts it from the second, clamping each of the four coordinates
    on its own to [[0, N-1]]. *)
Theorem entangled_move_clamps x1 y1 x2 y2 dx dy N :
  1 <= N ->
  entangled_move (x1, y1) (x2, y2) (dx, dy) N =
    ((clamp N (x1 + dx), clamp N (y1 + dy)),
     (clamp N (x2 - dx), clamp N (y2 - dy))) /\
  in_bounds N (fst (entangled_move (x1, y1) (x2, y2) (dx, dy) N)) /\
  in_bounds N (snd (entangled_move (x1, y1) (x2, y2) (dx, dy) N)).
Proof.
  intros HN. unfold entangled_move, in_bounds. cbn [fst snd].
  rewrite !clamp_max_min by assumption.
  pose proof (clamp_range N (x1 + dx) HN).
  pose proof (clamp_range N (y1 + dy) HN).
  pose proof (clamp_range N (x2 - dx) HN).
  pose proof (clamp_range N (y2 - dy) HN).
  repeat split; lia.
Qed.

Lemma entangled_move_clamps_witness :
  entangled_move (2, 2) (7, 7) (1, 0) 10 = ((3, 2), (6, 7)).
Proof.
  destruct (entangled_move_clamps 2 2 7 7 1 0 10 ltac:(lia)) as [H _].
  rewrite H. reflexivity.
Defined.

(** C10: when none of the four candidate coordinates leaves [[0, N-1]],
    the sums of the two players' coordinates are the same after the move
    as before it. *)
Theorem entangled_move_preserves_sums x1 y1 x2 y2 dx dy N :
  0 <= x1 + dx <= N - 1 -> 0 <= y1 + dy <= N - 1 ->
  0 <= x2 - dx <= N - 1 -> 0 <= y2 - dy <= N - 1 ->
  let new := entangled_move (x1, y1) (x2, y2) (dx, dy) N in
  fst (fst new) + fst (snd new) = x1 + x2 /\
  snd (fst new) + snd (snd new) = y1 + y2.
Proof.
  intros H1 H2 H3 H4. unfold entangled_move. cbn [fst snd]. lia.
Qed.

Lemma entangled_move_preserves_sums_witness :
  let new := entangled_move (2, 2) (7, 7) (1, 0) 10 in
  fst (fst new) + fst (snd new) = 2 + 7 /\
  snd (fst new) + snd (snd new) = 2 + 7.
Proof.
  apply (entangled_move_preserves_sums 2 2 7 7 1 0 10); lia.
Defined.

(** ** Entropy source *)

Lemma binary_value_fold_nonneg key acc :
  0 <= acc -> 0 <= fold_left (fun a (bit : bool) => 2 * a + Z.b2z bit) key acc.
Proof.
  revert acc. induction key as [|b key IH]; intros acc Hacc; cbn [fold_left].
  - exact Hacc.
  - apply IH. destruct b; cbn; lia.
Qed.

Lemma binary_value_nonneg key : 0 <= binary_value key.
Proof. apply binary_value_fold_nonneg. lia. Qed.

Lemma int2_Some key v : int2 key = Some v -> v = binary_value key /\ key <> [].
Proof. destruct key; [discriminate|]. intros [= <-]. split; [reflexivity|discriminate]. Qed.

Lemma bit_length_pos n : 0 < n -> (1 <= bit_length n)%nat.
Proof. destruct n as [|p|p]; try lia. intros _. destruct p; cbn; lia. Qed.

Lemma measure_all_Val n w key w' :
  measure_all n w = (Val key, w') ->
  qbits w = key ++ qbits w' /\ length key = n /\ w' = set_qbits w (qbits w').
Proof.
  unfold measure_all. destruct (Nat.ltb_spec (length (qbits w)) n) as [Hlt|Hge];
    [discriminate|].
  intros [= <- <-]. cbn. repeat split.
  - symmetry. apply firstn_skipn.
  - apply firstn_length_le. exact Hge.
Qed.

Lemma measure_all_app n key rest w :
  length key = n ->
  measure_all n (set_qbits w (key ++ rest)) = (Val key, set_qbits w rest).
Proof.
  intros <-. unfold measure_all. cbn [qbits set_qbits].
  destruct (Nat.ltb_spec (length (key ++ rest)) (length key)) as [Hlt|Hge].
  - rewrite length_app in Hlt. lia.
  - rewrite take_app_length, drop_app_length. reflexivity.
Qed.

Lemma set_qbits_set_qbits w q q' : set_qbits (set_qbits w q) q' = set_qbits w q'.
Proof. reflexivity. Qed.

Lemma set_qbits_same w : set_qbits w (qbits w) = w.
Proof. destruct w. reflexivity. Qed.

(** What the loop returns, it drew after a run of rejected keys. *)
Lemma quantum_random_int_loop_Val fuel max_value w v w' :
  quantum_random_int_loop fuel max_value (bit_length max_value) w = (Val v, w') ->
  exists rejected accepted,
    rejection_run max_value rejected accepted /\ v = binary_value accepted /\
    qbits w = concat rejected ++ accepted ++ qbits w' /\
    w' = set_qbits w (qbits w').
Proof.
  revert w. induction fuel as [|fuel IH]; intros w H; [discriminate|].
  cbn [quantum_random_int_loop] in H.
  inv_bind H as key w1 Hkey. apply measure_all_Val in Hkey as (Hq & Hlen & Hw).
  inv_bind H as value w2 Hv. apply orraise_Val in Hv as [Hv ->].
  apply int2_Some in Hv as [-> _].
  destruct (Z.ltb_spec (binary_value key) max_value) as [Hlt|Hge].
  - apply ret_Val in H as [<- ->].
    exists [], key. repeat split; auto.
  - apply IH in H as (rejected & accepted & (Hrej & Hacc) & Hv & Hq' & Hw').
    exists (key :: rejected), accepted.
    split; [split; [constructor; auto | exact Hacc]|].
    split; [exact Hv|]. split.
    + cbn [concat]. rewrite Hq, Hq', <- app_assoc. reflexivity.
    + rewrite Hw' at 1. rewrite Hw. reflexivity.
Qed.

(** A run of rejected keys followed by an accepted one is enough for the
    loop to return, given one unit of fuel per key. *)
Lemma quantum_random_int_loop_run fuel max_value rejected accepted rest w :
  0 < max_value ->
  rejection_run max_value rejected accepted ->
  (length rejected < fuel)%nat ->
  quantum_random_int_loop fuel max_value (bit_length max_value)
    (set_qbits w (concat rejected ++ accepted ++ rest)) =
    (Val (binary_value accepted), set_qbits w rest).
Proof.
  intros Hmax (Hrej & Hlen & Hacc). revert fuel.
  induction Hrej as [|key rejected [Hk1 Hk2] Hrej IH]; intros fuel Hfuel;
    (destruct fuel as [|fuel]; [cbn in Hfuel; lia|]);
    cbn [quantum_random_int_loop concat app]; unfold bind.
  - rewrite (measure_all_app _ accepted) by assumption.
    destruct accepted as [|b accepted];
      [pose proof (bit_length_pos _ Hmax); cbn in Hlen; lia|].
    cbn [int2 orraise ret].
    destruct (Z.ltb_spec (binary_value (b :: accepted)) max_value); [reflexivity|lia].
  - rewrite <- app_assoc, (measure_all_app _ key) by assumption.
    destruct key as [|b key];
      [pose proof (bit_length_pos _ Hmax); cbn in Hk1; lia|].
    cbn [int2 orraise ret].
    destruct (Z.ltb_spec (binary_value (b :: key)) max_value); [lia|].
    apply IH. cbn in Hfuel. lia.
Qed.

Lemma rejection_run_length max_value rejected accepted :
  0 < max_value -> rejection_run max_value rejected accepted ->
  (length rejected < S (length (concat rejected ++ accepted)))%nat.
Proof.
  intros Hmax (Hrej & _). pose proof (bit_length_pos _ Hmax) as Hn.
  rewrite length_app. induction Hrej as [|key rejected [Hk _] _ IH]; cbn.
  - lia.
  - rewrite length_app. lia.
Qed.

(** C6: for [max_value > 0], [quantum_random_int] returns [v] exactly when
    the coins it reads are a run of keys of [max_value.bit_length()] bits
    that are out of range, followed by a key whose value [v] is in range;
    every value it returns satisfies [0 <= v < max_value]. *)
Theorem quantum_random_int_in_range max_value w v w' :
  0 < max_value ->
  (quantum_random_int max_value w = (Val v, w') <->
   exists rejected accepted,
     rejection_run max_value rejected accepted /\ v = binary_value accepted /\
     qbits w = concat rejected ++ accepted ++ qbits w' /\
     w' = set_qbits w (qbits w')) /\
  (quantum_random_int max_value w = (Val v, w') -> 0 <= v < max_value).
Proof.
  intros Hmax. split; [split|].
  - apply quantum_random_int_loop_Val.
  - intros (rejected & accepted & Hrun & -> & Hq & ->).
    unfold quantum_random_int. rewrite <- (set_qbits_same w) at 2.
    rewrite Hq. apply quantum_random_int_loop_run; [assumption..|].
    pose proof (rejection_run_length _ _ _ Hmax Hrun) as Hl.
    rewrite !length_app in *. lia.
  - intros H. apply quantum_random_int_loop_Val in H
      as (rejected & accepted & (_ & _ & Hacc) & -> & _).
    split; [apply binary_value_nonneg | exact Hacc].
Qed.

(** The loop never runs out of fuel before it runs out of coins: any two
    amounts of fuel above the number of coins left give the same outcome. *)
Lemma quantum_random_int_loop_fuel fuel1 fuel2 max_value n w :
  (length (qbits w) < fuel1)%nat -> (length (qbits w) < fuel2)%nat ->
  quantum_random_int_loop fuel1 max_value n w =
  quantum_random_int_loop fuel2 max_value n w.
Proof.
  revert fuel2 w. induction fuel1 as [|fuel1 IH]; intros fuel2 w H1 H2; [lia|].
  destruct fuel2 as [|fuel2]; [lia|].
  cbn [quantum_random_int_loop]. unfold bind.
  destruct (measure_all n w) as [[key| | |] w1] eqn:Hm; try reflexivity.
  apply measure_all_Val in Hm as (Hq & Hlen & Hw).
  destruct key as [|b key]; [reflexivity|].
  cbn [int2 orraise ret].
  destruct (binary_value (b :: key) <? max_value); [reflexivity|].
  rewrite Hq, length_app in H1, H2. cbn [length] in H1, H2.
  apply IH; lia.
Qed.

Lemma quantum_random_int_consumes max_value w v w' :
  quantum_random_int max_value w = (Val v, w') ->
  (length (qbits w') < length (qbits w))%nat /\ 0 <= v < max_value /\
  w' = set_qbits w (qbits w').
Proof.
  intros H. apply quantum_random_int_loop_Val in H
    as (rejected & accepted & (_ & Hlen & Hacc) & -> & Hq & Hw).
  assert (0 < max_value) as Hmax
    by (pose proof (binary_value_nonneg accepted); lia).
  pose proof (bit_length_pos _ Hmax).
  rewrite Hq, !length_app.
  repeat split; [lia | apply binary_value_nonneg | exact Hacc | exact Hw].
Qed.

Lemma keeps_shown_quantum_random_int_loop fuel max_value n :
  keeps_shown (quantum_random_int_loop fuel max_value n).
Proof.
  induction fuel as [|fuel IH]; cbn [quantum_random_int_loop];
    auto 6 with frame.
Qed.

Lemma keeps_shown_quantum_random_int max_value :
  keeps_shown (quantum_random_int max_value).
Proof. intros w. apply keeps_shown_quantum_random_int_loop. Qed.

#[local] Hint Resolve keeps_shown_quantum_random_int : frame.

(** *** Batch draws *)

Lemma slice_to_length {A : Type} (l : list A) k :
  0 <= k -> Z.of_nat (length (slice_to l k)) <= k.
Proof.
  intros Hk. unfold slice_to. destruct (Z.leb_spec 0 k); [|lia].
  rewrite length_take. lia.
Qed.

Lemma slice_to_Forall {A : Type} (P : A -> Prop) (l : list A) k :
  Forall P l -> Forall P (slice_to l k).
Proof.
  intros H. unfold slice_to. destruct (0 <=? k); apply Forall_take; exact H.
Qed.

Lemma batch_fold_Some max_value counts values0 :
  Forall (fun entry => fst entry <> []) counts ->
  fold_left (batch_step max_value) counts (Some values0) =
  Some (values0 ++ concat (map (survivors max_value) counts)).
Proof.
  intros H. revert values0.
  induction H as [|[key n] counts Hkey _ IH]; intros values0; cbn [fold_left map concat].
  - rewrite app_nil_r. reflexivity.
  - cbn [fst snd] in *. destruct key as [|b key]; [congruence|].
    unfold batch_step at 2, survivors at 1. cbn [int2 fst snd].
    destruct (binary_value (b :: key) <? max_value); rewrite IH.
    + rewrite <- app_assoc. reflexivity.
    + reflexivity.
Qed.

Lemma batch_fold_None max_value counts :
  fold_left (batch_step max_value) counts None = None.
Proof. induction counts as [|e counts IH]; [reflexivity | exact IH]. Qed.

Lemma batch_fold_inv max_value counts values0 values :
  fold_left (batch_step max_value) counts (Some values0) = Some values ->
  Forall (fun entry => fst entry <> []) counts.
Proof.
  revert values0. induction counts as [|[key n] counts IH]; intros values0 H.
  - constructor.
  - cbn [fold_left] in H. unfold batch_step at 2 in H. cbn [fst snd] in H.
    destruct key as [|b key].
    + cbn [int2] in H. rewrite batch_fold_None in H. discriminate.
    + constructor; [discriminate|]. cbn [int2] in H.
      destruct (binary_value (b :: key) <? max_value); eapply IH; exact H.
Qed.

Lemma survivors_in_range max_value counts :
  Forall (fun v => 0 <= v < max_value) (concat (map (survivors max_value) counts)).
Proof.
  induction counts as [|[key n] counts IH]; cbn [map concat]; [constructor|].
  apply Forall_app. split; [|exact IH].
  unfold survivors. cbn [fst snd].
  destruct (Z.ltb_spec (binary_value key) max_value); [|constructor].
  apply Forall_forall. intros v Hv. apply list_elem_of_In, repeat_spec in Hv. subst v.
  split; [apply binary_value_nonneg | assumption].
Qed.

(** A batch is the survivors of the counts, in their order, cut after
    [batch_size] of them; it is there whenever no key is empty. *)
Lemma quantum_random_int_batch_survivors max_value batch_size counts values :
  quantum_random_int_batch max_value batch_size counts = Some values <->
  Forall (fun entry => fst entry <> []) counts /\
  values = slice_to (concat (map (survivors max_value) counts)) batch_size.
Proof.
  unfold quantum_random_int_batch. split.
  - intros H.
    destruct (fold_left _ counts (Some [])) as [vs|] eqn:Hf; [|discriminate].
    pose proof (batch_fold_inv _ _ _ _ Hf) as Hne.
    rewrite (batch_fold_Some _ _ _ Hne) in Hf. cbn [app] in Hf.
    injection Hf as <-. injection H as <-. auto.
  - intros [Hne ->]. rewrite (batch_fold_Some _ _ _ Hne). reflexivity.
Qed.

(** C7: for [max_value > 0] and a batch size [B >= 0], from counts whose
    keys have [max_value.bit_length()] characters the batch draw returns
    a list of at most [B] values, each of them in [[0, max_value)]: the
    values of the in-range keys, as often as they were counted, cut after
    the first [B]. *)
Theorem quantum_random_int_batch_in_range max_value batch_size counts :
  0 < max_value -> 0 <= batch_size ->
  Forall (fun entry => length (fst entry) = bit_length max_value) counts ->
  exists values,
    quantum_random_int_batch max_value batch_size counts = Some values /\
    Z.of_nat (length values) <= batch_size /\
    Forall (fun v => 0 <= v < max_value) values /\
    values = slice_to (concat (map (survivors max_value) counts)) batch_size.
Proof.
  intros Hmax HB Hkeys.
  exists (slice_to (concat (map (survivors max_value) counts)) batch_size).
  split.
  - apply quantum_random_int_batch_survivors. split; [|reflexivity].
    eapply Forall_impl; [exact Hkeys|]. intros [key n] Hlen Hnil.
    cbn [fst] in *. subst key. pose proof (bit_length_pos _ Hmax).
    cbn [length] in Hlen. lia.
  - split; [apply slice_to_length; exact HB|].
    split; [|reflexivity].
    apply slice_to_Forall, survivors_in_range.
Qed.

(** Whatever the counts, a batch that is returned is within these bounds. *)
Lemma quantum_random_int_batch_Some max_value batch_size counts values :
  0 <= batch_size ->
  quantum_random_int_batch max_value batch_size counts = Some values ->
  Z.of_nat (length values) <= batch_size /\
  Forall (fun v => 0 <= v < max_value) values.
Proof.
  intros HB H. apply quantum_random_int_batch_survivors in H as [_ ->].
  split; [apply slice_to_length; exact HB|].
  apply slice_to_Forall, survivors_in_range.
Qed.

(** ** Maze generation *)

Lemma maze_rows_Val rows size w grid w' :
  maze_rows rows size w = (Val grid, w') ->
  length grid = rows /\ Forall (fun row => length row = size) grid /\
  w' = set_qbits w (qbits w').
Proof.
  revert w grid w'. induction rows as [|rows IH]; intros w grid w' H;
    cbn [maze_rows] in H.
  - apply ret_Val in H as [<- ->]. repeat split; [constructor|].
    symmetry. apply set_qbits_same.
  - inv_bind H as bits w1 Hbits. apply measure_all_Val in Hbits as (_ & Hlen & Hw1).
    inv_bind H as rest w2 Hrest. apply IH in Hrest as (Hl & Hrows & Hw2).
    apply ret_Val in H as [<- ->]. cbn [length]. repeat split.
    + congruence.
    + constructor; [|exact Hrows]. rewrite length_map, length_rev. exact Hlen.
    + rewrite Hw2 at 1. rewrite Hw1. reflexivity.
Qed.

Lemma maze_rows_enough rows size w :
  (rows * size <= length (qbits w))%nat ->
  exists grid w', maze_rows rows size w = (Val grid, w').
Proof.
  revert w. induction rows as [|rows IH]; intros w H; cbn [maze_rows].
  - eexists _, _. reflexivity.
  - unfold bind at 1. unfold measure_all.
    destruct (Nat.ltb_spec (length (qbits w)) size) as [Hlt|Hge]; [lia|].
    destruct (IH (set_qbits w (skipn size (qbits w)))) as (grid & w' & Hg).
    { cbn [qbits set_qbits]. rewrite length_drop. lia. }
    unfold bind. rewrite Hg. eexists _, _. reflexivity.
Qed.

Lemma keeps_shown_maze_rows rows size : keeps_shown (maze_rows rows size).
Proof. induction rows as [|rows IH]; cbn [maze_rows]; auto with frame. Qed.

#[local] Hint Resolve keeps_shown_maze_rows : frame.

Lemma quantum_maze_visibility_Val size sx sy gx gy w grid w' :
  quantum_maze_visibility size (sx, sy) (Some (gx, gy)) w = (Val grid, w') ->
  square size grid /\ is_open grid (sx, sy) /\ is_open grid (gx, gy).
Proof.
  unfold quantum_maze_visibility. intros H.
  inv_bind H as g0 w0 Hrows. apply maze_rows_Val in Hrows as (Hlen & Hrows & _).
  inv_bind H as g1 w1 Hs. apply orraise_Val in Hs as [Hs ->].
  inv_bind H as g2 w2 Hg. apply orraise_Val in Hg as [Hg ->].
  apply ret_Val in H as [<- ->].
  assert (square size g0) as Hsq by (split; assumption).
  split; [|split].
  - eapply setitem2_square; [exact Hg|]. eapply setitem2_square; eassumption.
  - unfold is_open. cbn [fst snd].
    eapply setitem2_true_mono; [exact Hg|].
    eapply setitem2_get_same; exact Hs.
  - unfold is_open. cbn [fst snd]. eapply setitem2_get_same; exact Hg.
Qed.

Lemma quantum_maze_visibility_default size start :
  quantum_maze_visibility size start None =
  quantum_maze_visibility size start (Some (size / 2, size / 2)).
Proof. reflexivity. Qed.

Lemma quantum_maze_visibility_enough size sx sy gx gy w :
  in_bounds size (sx, sy) -> in_bounds size (gx, gy) ->
  (Z.to_nat size * Z.to_nat size <= length (qbits w))%nat ->
  exists grid w',
    quantum_maze_visibility size (sx, sy) (Some (gx, gy)) w = (Val grid, w').
Proof.
  intros [Hsx Hsy] [Hgx Hgy] Hq. cbn [fst snd] in *.
  destruct (maze_rows_enough _ _ _ Hq) as (g0 & w0 & Hrows).
  pose proof (maze_rows_Val _ _ _ _ _ Hrows) as (Hlen & Hshape & _).
  assert (square size g0) as Hsq by (split; assumption).
  destruct (setitem2_in_square size g0 sx sy true Hsq Hsx Hsy) as (g1 & Hs).
  pose proof (setitem2_square _ _ _ _ _ _ Hs Hsq) as Hsq1.
  destruct (setitem2_in_square size g1 gx gy true Hsq1 Hgx Hgy) as (g2 & Hg).
  exists g2, w0. unfold quantum_maze_visibility, bind.
  rewrite Hrows, Hs. cbn [orraise ret]. rewrite Hg. reflexivity.
Qed.

Lemma keeps_shown_quantum_maze_visibility size start goal :
  keeps_shown (quantum_maze_visibility size start goal).
Proof.
  unfold quantum_maze_visibility. destruct start as [sx sy].
  destruct (match goal with Some g => g | None => _ end) as [gx gy].
  auto 6 with frame.
Qed.

#[local] Hint Resolve keeps_shown_quantum_maze_visibility : frame.

(** C3: whatever the coins, a grid that [quantum_maze_visibility] returns
    has the start cell and the goal cell open; and it does return one
    when both cells lie in the grid and the coins suffice for [size] rows
    of [size] cells. *)
Theorem maze_start_goal_open size start goal w :
  (forall grid w',
     quantum_maze_visibility size start goal w = (Val grid, w') ->
     is_open grid start /\ is_open grid (goal_or_centre size goal)) /\
  (in_bounds size start -> in_bounds size (goal_or_centre size goal) ->
   (Z.to_nat size * Z.to_nat size <= length (qbits w))%nat ->
   exists grid w', quantum_maze_visibility size start goal w = (Val grid, w')).
Proof.
  destruct start as [sx sy].
  assert (quantum_maze_visibility size (sx, sy) goal =
          quantum_maze_visibility size (sx, sy) (Some (goal_or_centre size goal)))
    as -> by (destruct goal; reflexivity).
  destruct (goal_or_centre size goal) as [gx gy]. split.
  - intros grid w' H. apply quantum_maze_visibility_Val in H. tauto.
  - apply quantum_maze_visibility_enough.
Qed.

(** ** Reset *)

Lemma post_quantum_random_int max_value :
  post (quantum_random_int max_value) (fun v => 0 <= v < max_value).
Proof. intros w v w' H. apply quantum_random_int_consumes in H. tauto. Qed.

Lemma post_random_empty_cell_loop fuel g :
  post (random_empty_cell_loop fuel g)
    (fun p => well_placed g p /\ in_bounds (grid_size g) p).
Proof.
  induction fuel as [|fuel IH]; cbn [random_empty_cell_loop].
  - intros w p w' H. discriminate.
  - eapply post_bind; [apply post_quantum_random_int|]. intros x Hx. cbv beta in Hx.
    eapply post_bind; [apply post_quantum_random_int|]. intros y Hy. cbv beta in Hy.
    eapply post_bind; [apply (post_orraise _ _ (fun c => getitem2 (maze g) y x = Some c)); auto|].
    intros cell Hcell.
    destruct cell; cbn [andb]; [|exact IH].
    destruct (pos_in (x, y) [player1_pos g; player2_pos g; goal g]) eqn:Hin;
      cbn [negb]; [exact IH|].
    apply post_ret. apply pos_in_false in Hin. cbn [In] in Hin.
    unfold well_placed, in_bounds, is_open. cbn [fst snd].
    repeat split; try lia; try assumption;
      intros Heq; apply Hin; symmetry in Heq; tauto.
Qed.

Lemma post_random_empty_cell g :
  post (random_empty_cell g)
    (fun p => well_placed g p /\ in_bounds (grid_size g) p).
Proof. intros w p w' H. eapply post_random_empty_cell_loop. exact H. Qed.

Lemma post_comprehension {A : Type} (n : nat) (m : M A) (Q : A -> Prop) :
  post m Q -> post (comprehension n m) (fun l => length l = n /\ Forall Q l).
Proof.
  intros Hm. induction n as [|n IH]; cbn [comprehension].
  - apply post_ret. split; [reflexivity | constructor].
  - eapply post_bind; [exact Hm|]. intros a Ha.
    eapply post_bind; [exact IH|]. intros l [Hl HQ].
    apply post_ret. split; [cbn; congruence | constructor; assumption].
Qed.

Lemma post_reset_game g : post (reset_game g) (reset_state g).
Proof.
  unfold reset_game. cbn [grid_size goal set_goal].
  eapply post_bind.
  { intros w m w' H. apply quantum_maze_visibility_Val in H. exact H. }
  intros m (Hsq & Hstart & Hgoal).
  eapply post_bind; [apply post_comprehension, post_random_empty_cell|].
  intros es [Hlen Hes]. apply post_ret.
  unfold reset_state, board_reset. cbn.
  repeat split; try assumption; apply Hsq.
Qed.

Lemma keeps_shown_random_empty_cell_loop fuel g :
  keeps_shown (random_empty_cell_loop fuel g).
Proof.
  induction fuel as [|fuel IH]; cbn [random_empty_cell_loop];
    auto 8 with frame.
Qed.

Lemma keeps_shown_random_empty_cell g : keeps_shown (random_empty_cell g).
Proof. intros w. apply keeps_shown_random_empty_cell_loop. Qed.

Lemma keeps_shown_comprehension {A : Type} (n : nat) (m : M A) :
  keeps_shown m -> keeps_shown (comprehension n m).
Proof.
  intros Hm. induction n as [|n IH]; cbn [comprehension]; auto with frame.
Qed.

#[local] Hint Resolve keeps_shown_random_empty_cell keeps_shown_comprehension
  : frame.

Lemma keeps_shown_reset_game g : keeps_shown (reset_game g).
Proof. unfold reset_game. auto with frame. Qed.

#[local] Hint Resolve keeps_shown_reset_game : frame.

(** ** Moving the players *)

Lemma is_valid_square g p :
  square (grid_size g) (maze g) ->
  exists b, is_valid g p = Some b /\ (b = true <-> passable g p).
Proof.
  intros Hsq. destruct p as [x y]. unfold is_valid, passable, in_bounds, is_open.
  cbn [fst snd].
  destruct ((0 <=? x) && (x <? grid_size g) && ((0 <=? y) && (y <? grid_size g)))
    eqn:Hb.
  - apply andb_true_iff in Hb as [Hx Hy].
    apply andb_true_iff in Hx as [Hx1 Hx2]. apply andb_true_iff in Hy as [Hy1 Hy2].
    destruct (getitem2_square _ (maze g) x y Hsq) as [c Hc]; [lia..|].
    exists c. split; [exact Hc|]. rewrite Hc. split.
    + intros ->. repeat split; lia.
    + intros [_ [= ->]]. reflexivity.
  - exists false. split; [reflexivity|]. split; [discriminate|].
    intros [[Hx Hy] _].
    assert ((0 <=? x) && (x <? grid_size g) && ((0 <=? y) && (y <? grid_size g)) = true);
      [|congruence].
    rewrite !andb_true_iff. lia.
Qed.

(** C5: on the [N] by [N] maze of an episode, [move_players] returns;
    player 1 is at its candidate when that cell is in bounds and open
    and where it was otherwise, and so is player 2 for its own candidate,
    whatever happened to player 1.  Nothing else changes. *)
Theorem move_players_per_agent g move w :
  square (grid_size g) (maze g) ->
  let new := entangled_move (player1_pos g) (player2_pos g) move (grid_size g) in
  exists g',
    move_players g move w = (Val g', w) /\
    (passable g (fst new) -> player1_pos g' = fst new) /\
    (~ passable g (fst new) -> player1_pos g' = player1_pos g) /\
    (passable g (snd new) -> player2_pos g' = snd new) /\
    (~ passable g (snd new) -> player2_pos g' = player2_pos g) /\
    same_board g g' /\ running g' = running g.
Proof.
  intros Hsq new. unfold move_players. fold new.
  destruct new as [c1 c2]. cbn [fst snd].
  destruct (is_valid_square g c1 Hsq) as (v1 & Hv1 & Hp1).
  set (g1 := if v1 then set_player1_pos g c1 else g).
  assert (grid_size g1 = grid_size g /\ maze g1 = maze g) as [Hn Hm]
    by (subst g1; destruct v1; auto).
  assert (is_valid g1 c2 = is_valid g c2) as Hsame
    by (destruct c2; unfold is_valid; rewrite Hn, Hm; reflexivity).
  destruct (is_valid_square g c2 Hsq) as (v2 & Hv2 & Hp2).
  exists (if v2 then set_player2_pos g1 c2 else g1).
  unfold bind. rewrite Hv1. cbn [orraise ret]. fold g1.
  rewrite Hsame, Hv2. cbn [orraise ret].
  split; [reflexivity|].
  subst g1. unfold same_board.
  destruct v1, v2; cbn; repeat split; intros; try reflexivity;
    try tauto; exfalso;
    (apply Hp1 in H || apply Hp2 in H || (apply H; tauto)); discriminate.
Qed.

Lemma post_move_players g move :
  post (move_players g move) (same_board g).
Proof.
  unfold move_players.
  destruct (entangled_move _ _ _ _) as [c1 c2].
  eapply post_bind; [apply (post_orraise _ _ (fun _ => True)); auto|].
  intros v1 _.
  eapply post_bind; [apply (post_orraise _ _ (fun _ => True)); auto|].
  intros v2 _. apply post_ret.
  unfold same_board. destruct v1, v2; cbn; auto.
Qed.

(** ** Adversaries *)

Lemma post_random_choice {A : Type} (seq : list A) :
  post (random_choice seq) (fun a => In a seq).
Proof.
  intros w a w'. unfold random_choice.
  destruct (rng w) as [|r rest]; [discriminate|].
  destruct (seq !! (r mod length seq)%nat) as [a0|] eqn:Hl; [|discriminate].
  intros [= <- <-]. apply list_elem_of_In. eapply list_elem_of_lookup_2. exact Hl.
Qed.

Lemma post_enemy_step g e : post (enemy_step g e) (adversary_step g e).
Proof.
  destruct e as [ex ey]. unfold enemy_step.
  eapply post_bind; [apply post_random_choice|]. intros move Hmove.
  destruct ((0 <=? ex + fst move) && (ex + fst move <? grid_size g) &&
            ((0 <=? ey + snd move) && (ey + snd move <? grid_size g))) eqn:Hb;
    [|apply post_ret; left; reflexivity].
  eapply post_bind;
    [apply (post_orraise _ _
       (fun c => getitem2 (maze g) (ey + snd move) (ex + fst move) = Some c)); auto|].
  intros cell Hcell.
  destruct cell; apply post_ret; [|left; reflexivity].
  apply andb_true_iff in Hb as [Hx Hy].
  apply andb_true_iff in Hx as [Hx1 Hx2]. apply andb_true_iff in Hy as [Hy1 Hy2].
  assert (passable g (ex + fst move, ey + snd move)) as Hp.
  { unfold passable, in_bounds, is_open. cbn [fst snd]. repeat split; try lia.
    exact Hcell. }
  unfold enemy_moves in Hmove. cbn [In] in Hmove.
  destruct Hmove as [<-|[<-|[<-|[<-|[<-|[]]]]]]; cbn [fst snd] in *.
  - right. split; [|exact Hp]. left. cbn [fst snd]. f_equal; lia.
  - right. split; [|exact Hp]. right. left. cbn [fst snd]. f_equal; lia.
  - right. split; [|exact Hp]. right. right. left. cbn [fst snd]. f_equal; lia.
  - right. split; [|exact Hp]. right. right. right. cbn [fst snd]. f_equal; lia.
  - left. f_equal; lia.
Qed.

Lemma post_for_each {A B : Type} (f : A -> M B) (Q : A -> B -> Prop)
  (l : list A) :
  (forall a, post (f a) (Q a)) -> post (for_each f l) (Forall2 Q l).
Proof.
  intros Hf. induction l as [|a l IH]; cbn [for_each].
  - apply post_ret. constructor.
  - eapply post_bind; [apply Hf|]. intros b Hb.
    eapply post_bind; [exact IH|]. intros bs Hbs.
    apply post_ret. constructor; assumption.
Qed.

Lemma adversary_step_stay g (l : list pos) : Forall2 (adversary_step g) l l.
Proof. induction l; constructor; [left; reflexivity | assumption]. Qed.

Lemma adversary_step_same_board g g0 e e' :
  grid_size g0 = grid_size g -> maze g0 = maze g ->
  adversary_step g0 e e' -> adversary_step g e e'.
Proof.
  unfold adversary_step, passable. intros -> ->. trivial.
Qed.

(** What [update] returns: the adversaries each took one step, nothing
    but the counter changed besides. *)
Lemma post_update g :
  post (update g)
    (fun g' => Forall2 (adversary_step g) (enemies g) (enemies g') /\
               grid_size g' = grid_size g /\ maze g' = maze g).
Proof.
  unfold update. cbn [enemy_move_delay enemy_move_counter set_enemy_move_counter].
  destruct (enemy_move_delay g <=? enemy_move_counter g + 1).
  - eapply post_bind.
    + apply (post_for_each _ (adversary_step g)). intros e.
      eapply post_weaken; [apply post_enemy_step|]. intros e'.
      apply adversary_step_same_board; reflexivity.
    + intros es Hes. apply post_ret. cbn. auto.
  - apply post_ret. cbn. split; [apply adversary_step_stay | auto].
Qed.

Lemma adversary_steps_passable g (es es' : list pos) :
  Forall2 (adversary_step g) es es' ->
  Forall (passable g) es -> Forall (passable g) es'.
Proof.
  induction 1 as [|e e' es es' [->|[_ Hp]] _ IH]; intros Hes;
    inversion Hes; subst; constructor; auto.
Qed.

Lemma episode_invariant_same_board g g' :
  same_board g g' -> episode_invariant g -> episode_invariant g'.
Proof.
  unfold same_board, episode_invariant, passable.
  intros (-> & -> & _ & ->). trivial.
Qed.

Lemma reset_state_invariant g g' : reset_state g g' -> episode_invariant g'.
Proof.
  intros ((Hn & _) & Hsq & _ & Hes & _). unfold episode_invariant, passable.
  rewrite Hn. split; [exact Hsq|].
  eapply Forall_impl; [exact Hes|]. cbv beta. unfold well_placed. tauto.
Qed.

Lemma post_handle_events evs g :
  episode_invariant g -> post (handle_events evs g) episode_invariant.
Proof.
  revert g. induction evs as [|ev evs IH]; intros g Hg; cbn [handle_events].
  - apply post_ret. exact Hg.
  - destruct ev as [|k|]; [| |apply IH; exact Hg].
    + apply IH. eapply episode_invariant_same_board; [|exact Hg].
      unfold same_board. cbn. auto.
    + assert (forall move,
                post (g' <- move_players g move ;; handle_events evs g')
                  episode_invariant) as Hmove.
      { intros move. eapply post_bind; [apply post_move_players|].
        intros g' Hsame. apply IH.
        eapply episode_invariant_same_board; eassumption. }
      destruct k; cbn [key_move]; try apply Hmove; try (apply IH; exact Hg).
      eapply post_weaken; [apply post_reset_game|].
      intros g'. apply reset_state_invariant.
Qed.

Lemma post_handle_input g :
  episode_invariant g -> post (handle_input g) episode_invariant.
Proof.
  intros Hg. unfold handle_input.
  eapply post_bind; [intros w evs w' _; exact I|].
  intros evs _. apply post_handle_events. exact Hg.
Qed.

(** ** End screens *)

Lemma post_end_screen_events evs g waiting :
  post (end_screen_events evs g waiting)
    (fun r => r = (g, waiting) \/
              (snd r = false /\ exists g0, reset_state g0 (fst r))).
Proof.
  revert g waiting. induction evs as [|ev evs IH]; intros g waiting;
    cbn [end_screen_events].
  - apply post_ret. left. reflexivity.
  - destruct ev as [|k|]; [intros w r w' H; discriminate| |apply IH].
    destruct k; try apply IH; try (intros w r w' H; discriminate).
    eapply post_bind; [apply post_reset_game|]. intros g' Hg'.
    eapply post_weaken; [apply IH|]. cbv beta.
    intros r [->|Hr]; right; [|exact Hr].
    split; [reflexivity|]. exists g. exact Hg'.
Qed.

Lemma post_end_screen_wait script g :
  post (end_screen_wait script g) (fun g' => exists g0, reset_state g0 g').
Proof.
  revert g. induction script as [|evs script IH]; intros g w g' w' H;
    cbn [end_screen_wait] in H; [discriminate|].
  revert H. generalize (set_polls w script). clear w. intros w H. revert w g' w' H.
  change (post (bind (end_screen_events evs g true)
                  (fun r => if snd r then end_screen_wait script (fst r)
                            else ret (fst r)))
            (fun g' => exists g0, reset_state g0 g')).
  eapply post_bind; [apply post_end_screen_events|].
  intros [g1 b] [[= -> ->]|[Hb Hr]]; cbn [fst snd] in *.
  - apply IH.
  - subst b. apply post_ret. exact Hr.
Qed.

Lemma post_show_end_screen g message :
  post (show_end_screen g message) (fun g' => exists g0, reset_state g0 g').
Proof. intros w g' w' H. eapply post_end_screen_wait. exact H. Qed.

Lemma keeps_shown_end_screen_events evs g waiting :
  keeps_shown (end_screen_events evs g waiting).
Proof.
  revert g waiting. induction evs as [|ev evs IH]; intros g waiting;
    cbn [end_screen_events].
  - auto with frame.
  - destruct ev as [|k|]; [| destruct k |]; auto with frame.
Qed.

Lemma keeps_shown_end_screen_wait script g :
  keeps_shown (end_screen_wait script g).
Proof.
  revert g. induction script as [|evs script IH]; intros g w;
    cbn [end_screen_wait]; [reflexivity|].
  change (shown w) with (shown (set_polls w script)).
  generalize (set_polls w script). clear w.
  apply keeps_shown_bind; [apply keeps_shown_end_screen_events|].
  intros [g1 b]. cbn [fst snd]. destruct b; [apply IH | apply keeps_shown_ret].
Qed.

Lemma show_end_screen_shown g message w :
  shown (snd (show_end_screen g message w)) = shown w ++ [message].
Proof. unfold show_end_screen. rewrite keeps_shown_end_screen_wait. reflexivity. Qed.

Lemma reset_state_no_loss g0 g b :
  reset_state g0 g -> loss_condition (set_running g b) = false.
Proof.
  intros (_ & _ & _ & Hes & _). unfold loss_condition. cbn.
  apply orb_false_iff. split; apply pos_in_false; intros Hin;
    apply list_elem_of_In in Hin;
    rewrite Forall_forall in Hes; apply Hes in Hin as [(_ & H1 & H2 & _) _];
    congruence.
Qed.

(** C1: when a player is on the goal and a player is on an adversary's
    cell at the same check, the screen [check_game_over] puts up is the
    win screen and no other: the loss screen does not follow it, whatever
    the player answers and however the call ends. *)
Theorem win_takes_precedence g w :
  win_condition g = true -> loss_condition g = true ->
  screens_since w (check_game_over g w) = [win_message].
Proof.
  intros Hwin Hloss. unfold screens_since.
  assert (shown (snd (check_game_over g w)) = shown w ++ [win_message]) as ->;
    [|apply drop_app_length].
  unfold check_game_over. rewrite Hwin. unfold bind.
  pose proof (show_end_screen_shown g win_message w) as Hs.
  pose proof (post_show_end_screen g win_message w) as Hp.
  destruct (show_end_screen g win_message w) as [[g1| | |] w1];
    cbn [snd] in Hs; try exact Hs.
  cbn [ret]. destruct (Hp g1 w1 eq_refl) as [g0 Hr].
  rewrite (reset_state_no_loss g0 g1 false Hr). exact Hs.
Qed.

(** ** Reachable states *)

Lemma post_check_game_over g :
  episode_invariant g -> post (check_game_over g) episode_invariant.
Proof.
  intros Hg. unfold check_game_over.
  assert (forall g1 message,
            post (g' <- show_end_screen g1 message ;; ret (set_running g' false))
              episode_invariant) as Hscreen.
  { intros g1 message. eapply post_bind; [apply post_show_end_screen|].
    intros g' [g0 Hr]. apply post_ret.
    eapply episode_invariant_same_board; [|eapply reset_state_invariant; exact Hr].
    unfold same_board. cbn. auto. }
  eapply (post_bind _ _ episode_invariant).
  - destruct (win_condition g); [apply Hscreen | apply post_ret; exact Hg].
  - intros g1 Hg1. destruct (loss_condition g1);
      [apply Hscreen | apply post_ret; exact Hg1].
Qed.

Lemma reachable_invariant g : reachable g -> episode_invariant g.
Proof.
  induction 1 as [n w g w' H | g w g' w' _ IH H | g w g' w' _ IH H
                 | g w g' w' _ IH H].
  - apply post_reset_game in H. eapply reset_state_invariant. exact H.
  - eapply post_handle_input; eassumption.
  - apply post_update in H as (Hstep & Hn & Hm).
    destruct IH as [Hsq Hes]. unfold episode_invariant, passable in *.
    rewrite Hn, Hm. split; [exact Hsq|].
    eapply (adversary_steps_passable g); eassumption.
  - eapply post_check_game_over; eassumption.
Qed.

Lemma reachable_square g : reachable g -> square (grid_size g) (maze g).
Proof. intros Hg. apply reachable_invariant in Hg. apply Hg. Qed.

Lemma random_choice_enemy_moves r rest w :
  rng w = r :: rest ->
  exists move, random_choice enemy_moves w = (Val move, set_rng w rest).
Proof.
  intros Hr. unfold random_choice. rewrite Hr.
  destruct (lookup_lt_is_Some_2 enemy_moves (r mod length enemy_moves)%nat)
    as [move Hmove].
  { cbn [length enemy_moves]. apply Nat.mod_upper_bound. discriminate. }
  rewrite Hmove. eauto.
Qed.

Lemma enemy_step_returns g e r rest w :
  square (grid_size g) (maze g) -> rng w = r :: rest ->
  exists e', enemy_step g e w = (Val e', set_rng w rest).
Proof.
  intros Hsq Hr. destruct e as [ex ey]. unfold enemy_step, bind.
  destruct (random_choice_enemy_moves r rest w Hr) as [move ->].
  destruct ((0 <=? ex + fst move) && (ex + fst move <? grid_size g) &&
            ((0 <=? ey + snd move) && (ey + snd move <? grid_size g))) eqn:Hb;
    [|eexists; reflexivity].
  apply andb_true_iff in Hb as [Hx Hy].
  apply andb_true_iff in Hx as [Hx1 Hx2]. apply andb_true_iff in Hy as [Hy1 Hy2].
  destruct (getitem2_square _ (maze g) (ex + fst move) (ey + snd move) Hsq)
    as [c ->]; [lia..|].
  cbn [orraise ret]. destruct c; eexists; reflexivity.
Qed.

Lemma for_each_enemy_step_returns g (es : list pos) w :
  square (grid_size g) (maze g) -> (length es <= length (rng w))%nat ->
  exists es' w', for_each (enemy_step g) es w = (Val es', w').
Proof.
  intros Hsq. revert w. induction es as [|e es IH]; intros w Hlen;
    cbn [for_each].
  - eexists _, _. reflexivity.
  - destruct (rng w) as [|r rest] eqn:Hr; [cbn in Hlen; lia|].
    destruct (enemy_step_returns g e r rest w Hsq Hr) as [e' He'].
    destruct (IH (set_rng w rest)) as (es' & w' & Hes').
    { cbn in *. lia. }
    unfold bind. rewrite He', Hes'. eexists _, _. reflexivity.
Qed.

Lemma update_returns g w :
  episode_invariant g -> (length (enemies g) <= length (rng w))%nat ->
  exists g' w', update g w = (Val g', w').
Proof.
  intros [Hsq _] Hlen. unfold update.
  cbn [enemy_move_delay enemy_move_counter set_enemy_move_counter].
  destruct (enemy_move_delay g <=? enemy_move_counter g + 1);
    [|eexists _, _; reflexivity].
  destruct (for_each_enemy_step_returns
              (set_enemy_move_counter (set_enemy_move_counter g (enemy_move_counter g + 1)) 0)
              (enemies g) w Hsq Hlen) as (es' & w' & Hes').
  unfold bind. cbn [enemies set_enemy_move_counter] in *. rewrite Hes'.
  eexists _, _. reflexivity.
Qed.

(** C8: an advance that [update] makes leaves every adversary where it was
    or puts it on an adjacent cell that is in bounds and open; so in
    every state of an episode all adversaries stand on open cells; and in
    such a state [update] does return, given a word of the generator for
    each adversary. *)
Theorem adversaries_stay_on_open_cells :
  (forall g w g' w',
     update g w = (Val g', w') ->
     Forall2 (adversary_step g) (enemies g) (enemies g')) /\
  (forall g, reachable g -> Forall (is_open (maze g)) (enemies g)) /\
  (forall g w,
     reachable g -> (length (enemies g) <= length (rng w))%nat ->
     exists g' w', update g w = (Val g', w')).
Proof.
  split; [|split].
  - intros g w g' w' H. apply post_update in H. tauto.
  - intros g Hg. apply reachable_invariant in Hg as [_ Hes].
    eapply Forall_impl; [exact Hes|]. unfold passable. cbv beta. tauto.
  - intros g w Hg. apply update_returns, reachable_invariant, Hg.
Qed.

(** The [while True] loop of [random_empty_cell] never runs out of fuel
    before it runs out of coins. *)
Lemma random_empty_cell_loop_fuel fuel1 fuel2 g w :
  (length (qbits w) < fuel1)%nat -> (length (qbits w) < fuel2)%nat ->
  random_empty_cell_loop fuel1 g w = random_empty_cell_loop fuel2 g w.
Proof.
  revert fuel2 w. induction fuel1 as [|fuel1 IH]; intros fuel2 w H1 H2; [lia|].
  destruct fuel2 as [|fuel2]; [lia|].
  cbn [random_empty_cell_loop]. unfold bind.
  destruct (quantum_random_int (grid_size g) w) as [[x| | |] w1] eqn:Hx;
    try reflexivity.
  apply quantum_random_int_consumes in Hx as (Hl1 & _ & _).
  destruct (quantum_random_int (grid_size g) w1) as [[y| | |] w2] eqn:Hy;
    try reflexivity.
  apply quantum_random_int_consumes in Hy as (Hl2 & _ & _).
  destruct (getitem2 (maze g) y x) as [cell|]; [|reflexivity].
  cbn [orraise ret].
  destruct (cell && negb (pos_in (x, y) [player1_pos g; player2_pos g; goal g]));
    [reflexivity|].
  apply IH; lia.
Qed.

(** ** An episode that starts with player 2 on a closed cell *)

Lemma maze_rows_concat size (rows : list bitstring) rest w :
  Forall (fun row => length row = size) rows ->
  maze_rows (length rows) size (set_qbits w (concat rows ++ rest)) =
    (Val (map (@rev bool) rows), set_qbits w rest).
Proof.
  induction 1 as [|row rows Hrow _ IH]; cbn [length maze_rows concat map].
  - reflexivity.
  - unfold bind. rewrite <- app_assoc.
    rewrite (measure_all_app size row) by exact Hrow.
    rewrite IH, map_id. reflexivity.
Qed.

Lemma rev_replicate {A : Type} n (x : A) : rev (replicate n x) = replicate n x.
Proof. rewrite rev_alt. apply reverse_replicate. Qed.

Lemma corner_rows_shape n :
  (1 <= n)%nat ->
  length (corner_rows n) = n /\
  Forall (fun row => length row = n) (corner_rows n) /\
  map (@rev bool) (corner_rows n) = corner_rows n.
Proof.
  intros Hn. unfold corner_rows. cbn [length map]. rewrite length_replicate.
  split; [lia|]. split.
  - constructor; [apply length_replicate|].
    apply Forall_replicate, length_replicate.
  - rewrite rev_replicate. f_equal.
    induction (n - 1)%nat as [|k IH]; cbn; [reflexivity|].
    rewrite rev_replicate. f_equal. exact IH.
Qed.

Lemma getitem2_nonneg (g : Grid) x y row :
  0 <= x -> 0 <= y -> g !! Z.to_nat y = Some row ->
  getitem2 g y x = row !! Z.to_nat x.
Proof.
  intros Hx Hy Hrow. unfold getitem2, getitem.
  pose proof (lookup_lt_Some _ _ _ Hrow) as Hlt.
  rewrite py_index_nonneg, Hrow by lia.
  destruct (Z.ltb_spec x (Z.of_nat (length row))) as [Hin|Hout].
  - rewrite py_index_nonneg by lia. reflexivity.
  - unfold py_index.
    replace ((0 <=? x) && (x <? Z.of_nat (length row))) with false
      by (symmetry; apply andb_false_iff; right; lia).
    replace ((- Z.of_nat (length row) <=? x) && (x <? 0)) with false
      by (symmetry; apply andb_false_iff; right; lia).
    symmetry. apply lookup_ge_None_2. lia.
Qed.

Lemma corner_rows_top N x :
  0 <= x < N -> getitem2 (corner_rows (Z.to_nat N)) 0 x = Some true.
Proof.
  intros Hx. rewrite (getitem2_nonneg _ _ _ (replicate (Z.to_nat N) true));
    [|lia|lia|reflexivity].
  apply lookup_replicate_2. lia.
Qed.

Lemma corner_rows_below N x y :
  0 <= x < N -> 1 <= y < N -> getitem2 (corner_rows (Z.to_nat N)) y x = Some false.
Proof.
  intros Hx Hy.
  rewrite (getitem2_nonneg _ _ _ (replicate (Z.to_nat N) false)); [|lia|lia|].
  - apply lookup_replicate_2. lia.
  - replace (Z.to_nat y) with (S (Z.to_nat (y - 1))) by lia.
    change (replicate (Z.to_nat N - 1) (replicate (Z.to_nat N) false)
              !! Z.to_nat (y - 1) = Some (replicate (Z.to_nat N) false)).
    apply lookup_replicate_2. lia.
Qed.

Lemma py_index_nonneg_inv len i k :
  py_index len i = Some k -> 0 <= i -> k = Z.to_nat i.
Proof.
  unfold py_index. intros H Hi.
  destruct ((0 <=? i) && (i <? Z.of_nat len)); [congruence|].
  destruct ((- Z.of_nat len <=? i) && (i <? 0)) eqn:E; [|discriminate].
  apply andb_true_iff in E as [_ E]. lia.
Qed.

Lemma setitem2_same_value (g : Grid) y x v :
  getitem2 g y x = Some v -> setitem2 g y x v = Some g.
Proof.
  unfold getitem2, setitem2, setitem, getitem.
  destruct (py_index (length g) y) as [ky|]; [|discriminate].
  destruct (g !! ky) as [row|] eqn:Hrow; [|discriminate].
  destruct (py_index (length row) x) as [kx|]; [|discriminate].
  intros Hv. rewrite (list_insert_id row kx v Hv).
  rewrite (list_insert_id g ky row Hrow). reflexivity.
Qed.

Lemma setitem2_get_other_row (g g' : Grid) y x v y' x' :
  setitem2 g y x v = Some g' -> 0 <= y -> 0 <= y' -> y <> y' ->
  getitem2 g' y' x' = getitem2 g y' x'.
Proof.
  unfold setitem2, getitem2, setitem, getitem.
  destruct (py_index (length g) y) as [ky|] eqn:Hy; [|discriminate].
  destruct (g !! ky) as [row|] eqn:Hrow; cbv beta iota; [|discriminate].
  destruct (py_index (length row) x) as [kx|]; cbv beta iota; [|discriminate].
  intros [= <-] Hy0 Hy0' Hne. rewrite length_insert.
  destruct (py_index (length g) y') as [ky'|] eqn:Hy'; [|reflexivity].
  apply py_index_nonneg_inv in Hy; [|assumption].
  apply py_index_nonneg_inv in Hy'; [|assumption].
  rewrite list_lookup_insert_ne by lia. reflexivity.
Qed.

Lemma corner_maze N rest w :
  3 <= N ->
  exists m,
    quantum_maze_visibility N (0, 0) (Some (N / 2, N / 2))
      (set_qbits w (concat (corner_rows (Z.to_nat N)) ++ rest)) =
      (Val m, set_qbits w rest) /\
    getitem2 m 0 1 = Some true /\ getitem2 m (N - 1) (N - 1) = Some false.
Proof.
  intros HN.
  destruct (corner_rows_shape (Z.to_nat N)) as (Hlen & Hrows & Hrev); [lia|].
  assert (square N (corner_rows (Z.to_nat N))) as Hsq by (split; assumption).
  assert (0 < N / 2 < N - 1) as Hc.
  { split; [apply Z.div_str_pos; lia|].
    apply Z.div_lt_upper_bound; lia. }
  destruct (setitem2_in_square N (corner_rows (Z.to_nat N)) (N / 2) (N / 2) true Hsq)
    as [m Hm]; [lia..|].
  exists m. split; [|split].
  - unfold quantum_maze_visibility, bind.
    rewrite <- Hlen at 1. rewrite (maze_rows_concat _ _ _ _ Hrows), Hrev.
    rewrite (setitem2_same_value _ 0 0 true) by (apply corner_rows_top; lia).
    cbn [orraise ret]. rewrite Hm. reflexivity.
  - rewrite (setitem2_get_other_row _ _ _ _ _ 0 1 Hm) by lia.
    apply corner_rows_top. lia.
  - rewrite (setitem2_get_other_row _ _ _ _ _ (N - 1) (N - 1) Hm) by lia.
    apply corner_rows_below; lia.
Qed.

Lemma binary_value_zeros k : binary_value (replicate k false) = 0.
Proof.
  unfold binary_value. induction k as [|k IH]; cbn [replicate fold_left].
  - reflexivity.
  - exact IH.
Qed.

Lemma binary_value_key_zero b : binary_value (key_zero b) = 0.
Proof. apply binary_value_zeros. Qed.

Lemma binary_value_key_one b : binary_value (key_one b) = 1.
Proof.
  unfold key_one, binary_value. rewrite fold_left_app.
  fold (binary_value (replicate (b - 1) false)).
  rewrite binary_value_zeros. reflexivity.
Qed.

Lemma quantum_random_int_accept max_value key rest w :
  length key = bit_length max_value -> 0 <= binary_value key < max_value ->
  quantum_random_int max_value (set_qbits w (key ++ rest)) =
    (Val (binary_value key), set_qbits w rest).
Proof.
  intros Hlen Hv. unfold quantum_random_int.
  apply (quantum_random_int_loop_run _ max_value [] key rest w).
  - lia.
  - split; [constructor|]. split; [exact Hlen | lia].
  - cbn. lia.
Qed.

Lemma random_empty_cell_accept g kx ky rest w :
  length kx = bit_length (grid_size g) ->
  length ky = bit_length (grid_size g) ->
  0 <= binary_value kx < grid_size g -> 0 <= binary_value ky < grid_size g ->
  getitem2 (maze g) (binary_value ky) (binary_value kx) = Some true ->
  pos_in (binary_value kx, binary_value ky)
    [player1_pos g; player2_pos g; goal g] = false ->
  random_empty_cell g (set_qbits w ((kx ++ ky) ++ rest)) =
    (Val (binary_value kx, binary_value ky), set_qbits w rest).
Proof.
  intros Hlx Hly Hx Hy Hcell Hin. unfold random_empty_cell.
  cbn [random_empty_cell_loop]. unfold bind.
  rewrite <- app_assoc.
  rewrite (quantum_random_int_accept _ kx) by assumption.
  rewrite (quantum_random_int_accept _ ky) by assumption.
  rewrite Hcell. cbn [orraise ret]. rewrite Hin. reflexivity.
Qed.

(** On [corner_coins], [reset_game] returns: the maze has row 0 open and
    the corner of player 2 closed, and the three adversaries share the
    cell [(1, 0)]. *)
Lemma reset_game_corner_coins g w :
  3 <= grid_size g ->
  exists g',
    reset_game g (set_qbits w (corner_coins (grid_size g))) =
      (Val g', set_qbits w []) /\
    getitem2 (maze g') (grid_size g - 1) (grid_size g - 1) = Some false /\
    enemies g' = [(1, 0); (1, 0); (1, 0)].
Proof.
  intros HN. set (N := grid_size g) in *.
  set (adv := key_one (bit_length N) ++ key_zero (bit_length N)).
  destruct (corner_maze N (adv ++ adv ++ adv) w HN) as (m & Hm & Htop & Hcorner).
  pose proof (bit_length_pos N ltac:(lia)) as Hb.
  assert (0 < N / 2) as Hc by (apply Z.div_str_pos; lia).
  set (g1 := set_player2_pos
               (set_player1_pos
                  (set_maze (set_goal g (N / 2, N / 2)) m) (0, 0))
               (N - 1, N - 1)).
  assert (forall rest,
            random_empty_cell g1 (set_qbits w (adv ++ rest)) =
              (Val (1, 0), set_qbits w rest)) as Hcell.
  { intros rest.
    pose proof (random_empty_cell_accept g1 (key_one (bit_length N))
                  (key_zero (bit_length N)) rest w) as H.
    rewrite binary_value_key_one, !binary_value_key_zero in H.
    apply H; cbn [grid_size g1 set_player2_pos set_player1_pos set_maze set_goal
                    maze player1_pos player2_pos goal]; fold N.
    - unfold key_one. rewrite length_app, length_replicate. cbn [length]. lia.
    - apply length_replicate.
    - lia.
    - lia.
    - exact Htop.
    - apply pos_in_false. cbn [In]. intros [H0|[H0|[H0|[]]]]; inversion H0; lia. }
  exists (set_running (set_enemies g1 [(1, 0); (1, 0); (1, 0)]) true).
  split; [|split; [exact Hcorner | reflexivity]].
  unfold reset_game, corner_coins. cbn [grid_size set_goal goal]. fold N.
  unfold bind at 1.
  cbn [replicate concat]. fold adv. rewrite app_nil_r, Hm.
  fold g1. cbn [comprehension]. unfold bind.
  rewrite Hcell, Hcell.
  rewrite <- (app_nil_r adv) at 1. rewrite Hcell. reflexivity.
Qed.

(** C2, as the code has it: a state that [reset_game] returns has the
    start and the goal cell open, [player1] at [(0,0)], [player2] at
    [(N-1,N-1)], and exactly three adversaries, each on an open cell that
    is neither a player's cell nor the goal (nothing is said about two
    adversaries sharing a cell); and for [N >= 3] there are coins on
    which it does return. *)
Theorem reset_game_establishes g w :
  (forall g' w',
     reset_game g w = (Val g', w') ->
     board_reset (grid_size g) g' /\
     length (enemies g') = 3%nat /\
     Forall (well_placed g') (enemies g')) /\
  (3 <= grid_size g ->
   exists coins g' w', reset_game g (set_qbits w coins) = (Val g', w')).
Proof.
  split.
  - intros g' w' H. apply post_reset_game in H.
    destruct H as (Hb & _ & Hlen & Hes & _).
    repeat split; try apply Hb; try assumption.
    eapply Forall_impl; [exact Hes|]. cbv beta. tauto.
  - intros HN. destruct (reset_game_corner_coins g w HN) as (g' & Hg' & _).
    eauto.
Qed.

(** C9: for every grid size [N >= 3] there are coins on which
    [reset_game] returns a state whose player 2 is at [(N-1, N-1)] with
    that cell closed. *)
Theorem player2_may_start_on_closed_cell g w :
  3 <= grid_size g ->
  exists coins g' w',
    reset_game g (set_qbits w coins) = (Val g', w') /\
    player2_pos g' = (grid_size g - 1, grid_size g - 1) /\
    getitem2 (maze g') (snd (player2_pos g')) (fst (player2_pos g')) = Some false.
Proof.
  intros HN.
  destruct (reset_game_corner_coins g w HN) as (g' & Hg' & Hclosed & _).
  exists (corner_coins (grid_size g)), g', (set_qbits w []).
  pose proof (post_reset_game g _ _ _ Hg') as ((_ & _ & _ & _ & _ & Hp2) & _).
  rewrite Hp2. cbn [fst snd]. auto.
Qed.

(** ** The claims on concrete inputs *)

Lemma win_takes_precedence_witness :
  screens_since restart_world (check_game_over won_and_caught restart_world) =
    [win_message].
Proof. apply win_takes_precedence; reflexivity. Defined.

(** The same check when the player restarts: the call returns, with the
    game reset and [running] set to [False]. *)
Example check_game_over_restart :
  exists g' w',
    check_game_over won_and_caught restart_world = (Val g', w') /\
    shown w' = [win_message] /\ running g' = false /\
    player1_pos g' = (0, 0) /\ polls w' = [].
Proof. eexists _, _. vm_compute. repeat split. Qed.

(** C2 as claimed fails: on [corner_coins] the three adversaries that
    [reset_game] places are on one and the same cell. *)
Lemma reset_game_adversaries_coincide :
  exists g' w',
    reset_game (fresh_game 10) (coins_world (corner_coins 10)) = (Val g', w') /\
    enemies g' = [(1, 0); (1, 0); (1, 0)] /\
    ~ reset_claimed (fresh_game 10) g'.
Proof.
  eexists _, _. split; [vm_compute; reflexivity|].
  split; [reflexivity|].
  intros (_ & _ & Hnodup & _). cbn [enemies] in Hnodup.
  inversion Hnodup as [|e es Hnotin _]. apply Hnotin. left.
Qed.

Lemma reset_game_establishes_witness :
  exists g' w',
    reset_game (fresh_game 10) (coins_world (corner_coins 10)) = (Val g', w') /\
    board_reset 10 g' /\ length (enemies g') = 3%nat /\
    Forall (well_placed g') (enemies g').
Proof.
  eexists _, _. split; [vm_compute; reflexivity|].
  destruct (reset_game_establishes (fresh_game 10) (coins_world (corner_coins 10)))
    as [Hpost _].
  apply (Hpost _ (coins_world [])). vm_compute. reflexivity.
Defined.

Lemma maze_start_goal_open_witness :
  exists grid w',
    quantum_maze_visibility 3 (0, 0) None (coins_world (replicate 9 false)) =
      (Val grid, w') /\
    is_open grid (0, 0) /\ is_open grid (1, 1).
Proof.
  destruct (maze_start_goal_open 3 (0, 0) None (coins_world (replicate 9 false)))
    as [Hopen Hreturns].
  destruct Hreturns as (grid & w' & Hgrid).
  - unfold in_bounds. cbn [fst snd]. lia.
  - unfold in_bounds, goal_or_centre. cbn [fst snd].
    change (3 / 2) with 1. lia.
  - cbn. lia.
  - exists grid, w'. split; [exact Hgrid|]. apply (Hopen grid w' Hgrid).
Defined.

Lemma move_players_per_agent_witness :
  exists g',
    move_players corner_game (1, 0) (coins_world []) = (Val g', coins_world []) /\
    player1_pos g' = (1, 0) /\ player2_pos g' = (9, 9).
Proof.
  destruct (move_players_per_agent corner_game (1, 0) (coins_world []))
    as (g' & Hg' & Hmove1 & _ & _ & Hstay2 & _).
  - split; [reflexivity|]. repeat constructor.
  - exists g'. split; [exact Hg'|]. split.
    + apply Hmove1. unfold passable, in_bounds, is_open. cbn. repeat split; lia.
    + apply Hstay2. intros [_ Hopen]. vm_compute in Hopen. discriminate.
Defined.

Lemma quantum_random_int_in_range_witness :
  quantum_random_int 10 (coins_world three_draws) = (Val 7, coins_world []) /\
  0 <= 7 < 10.
Proof.
  split; [reflexivity|].
  apply (quantum_random_int_in_range 10 (coins_world three_draws) 7 (coins_world [])).
  - lia.
  - reflexivity.
Defined.

Lemma quantum_random_int_batch_in_range_witness :
  quantum_random_int_batch 10 3 five_shots = Some [3; 3; 9] /\
  Z.of_nat (length [3; 3; 9]) <= 3 /\
  Forall (fun v => 0 <= v < 10) [3; 3; 9].
Proof.
  split; [reflexivity|].
  destruct (quantum_random_int_batch_in_range 10 3 five_shots)
    as (values & Hvalues & Hlen & Hrange & _);
    [lia | lia | repeat constructor |].
  assert (values = [3; 3; 9]) as -> by (vm_compute in Hvalues; congruence).
  split; assumption.
Defined.

(** A batch can come out shorter than asked for: of five shots for a batch
    of five, one was out of range. *)
Example quantum_random_int_batch_short :
  quantum_random_int_batch 10 5 five_shots = Some [3; 3; 9; 9].
Proof. reflexivity. Qed.

Lemma corner_game_reachable : reachable corner_game.
Proof.
  apply (reach_init 10 (coins_world (corner_coins 10)) _ (coins_world [])).
  vm_compute. reflexivity.
Qed.

Lemma adversaries_stay_on_open_cells_witness :
  Forall (is_open (maze corner_game)) (enemies corner_game) /\
  exists g' w',
    update corner_game (mkWorld [] [0; 1; 2]%nat [] []) = (Val g', w').
Proof.
  destruct adversaries_stay_on_open_cells as (_ & Hopen & Hreturns).
  split.
  - apply Hopen. exact corner_game_reachable.
  - apply Hreturns; [exact corner_game_reachable | cbn; lia].
Defined.

Lemma player2_may_start_on_closed_cell_witness :
  exists coins g' w',
    reset_game (fresh_game 10) (set_qbits (coins_world []) coins) = (Val g', w') /\
    player2_pos g' = (9, 9) /\
    getitem2 (maze g') (snd (player2_pos g')) (fst (player2_pos g')) = Some false.
Proof.
  apply (player2_may_start_on_closed_cell (fresh_game 10) (coins_world [])).
  cbn. lia.
Defined.

(** * The rest of the engine *)

(** ** Single draws: what is rejected and what can come out *)

(** X1: [quantum_random_int] returns no value when [max_value <= 0],
    whatever the coins. *)
Theorem quantum_random_int_needs_positive max_value w v w' :
  max_value <= 0 -> quantum_random_int max_value w <> (Val v, w').
Proof.
  intros Hmax H. apply quantum_random_int_consumes in H. lia.
Qed.

Lemma quantum_random_int_needs_positive_witness :
  quantum_random_int (-5) (coins_world three_draws) <> (Val 0, coins_world []).
Proof. apply quantum_random_int_needs_positive. lia. Defined.

Lemma quantum_random_int_skip max_value key rest w :
  0 < max_value ->
  length key = bit_length max_value -> max_value <= binary_value key ->
  quantum_random_int max_value (set_qbits w (key ++ rest)) =
  quantum_random_int max_value (set_qbits w rest).
Proof.
  intros Hmax Hlen Hout. pose proof (bit_length_pos _ Hmax) as Hn.
  unfold quantum_random_int. cbn [qbits set_qbits].
  transitivity (quantum_random_int_loop (length (key ++ rest)) max_value
                  (bit_length max_value) (set_qbits w rest)).
  - cbn [quantum_random_int_loop]. unfold bind.
    rewrite (measure_all_app _ key) by exact Hlen.
    destruct key as [|b key]; [cbn in Hlen; lia|].
    cbn [int2 orraise ret].
    destruct (Z.ltb_spec (binary_value (b :: key)) max_value); [lia|reflexivity].
  - apply quantum_random_int_loop_fuel; cbn [qbits set_qbits];
      rewrite ?length_app; lia.
Qed.

(** X2: a key of [max_value.bit_length()] characters whose value is not
    below [max_value] is thrown away: the call goes on as if the coins
    began after it. *)
Theorem quantum_random_int_rejects max_value key rest w :
  0 < max_value ->
  length key = bit_length max_value -> max_value <= binary_value key ->
  quantum_random_int max_value (set_qbits w (key ++ rest)) =
  quantum_random_int max_value (set_qbits w rest).
Proof. apply quantum_random_int_skip. Qed.

Lemma quantum_random_int_rejects_witness :
  quantum_random_int 10 (coins_world three_draws) =
  quantum_random_int 10
    (coins_world ([true; true; true; true] ++ [false; true; true; true])).
Proof.
  apply (quantum_random_int_rejects 10 [true; true; false; false]
           ([true; true; true; true] ++ [false; true; true; true])
           (coins_world [])); [lia | reflexivity | cbn; lia].
Defined.

Lemma binary_value_snoc key (b : bool) :
  binary_value (key ++ [b]) = 2 * binary_value key + Z.b2z b.
Proof. unfold binary_value. rewrite fold_left_app. reflexivity. Qed.

Lemma binary_value_ones n : binary_value (replicate n true) = 2 ^ Z.of_nat n - 1.
Proof.
  induction n as [|n IH]; [reflexivity|].
  replace (replicate (S n) true) with (replicate n true ++ [true]).
  - rewrite binary_value_snoc, IH, Nat2Z.inj_succ, Z.pow_succ_r by lia.
    cbn [Z.b2z]. lia.
  - clear IH. induction n as [|n IH]; [reflexivity|].
    cbn [replicate app] in *. rewrite IH. reflexivity.
Qed.

Lemma bit_length_bound n : 0 < n -> n < 2 ^ Z.of_nat (bit_length n).
Proof.
  destruct n as [|p|p]; try lia. intros _. cbn [bit_length].
  induction p as [p IH|p IH|]; cbn [Pos.size_nat];
    rewrite ?Nat2Z.inj_succ, ?Z.pow_succ_r by lia; lia.
Qed.

(** X3: for every [max_value > 0] the circuit has an outcome that is out
    of range, the key of all ones: [max_value.bit_length()] bits always
    reach past [max_value], also when it is a power of two. *)
Theorem quantum_random_int_can_reject max_value :
  0 < max_value ->
  max_value <= binary_value (replicate (bit_length max_value) true) /\
  forall rest w,
    quantum_random_int max_value
      (set_qbits w (replicate (bit_length max_value) true ++ rest)) =
    quantum_random_int max_value (set_qbits w rest).
Proof.
  intros Hmax.
  assert (max_value <= binary_value (replicate (bit_length max_value) true)) as H.
  { rewrite binary_value_ones. pose proof (bit_length_bound _ Hmax). lia. }
  split; [exact H|]. intros rest w.
  apply quantum_random_int_skip; [exact Hmax | apply length_replicate | exact H].
Qed.

Lemma quantum_random_int_can_reject_witness :
  8 <= binary_value (replicate (bit_length 8) true).
Proof. apply (quantum_random_int_can_reject 8). lia. Defined.

Lemma key_of_length n v : length (key_of n v) = n.
Proof.
  revert v. induction n as [|n IH]; intros v; cbn [key_of]; [reflexivity|].
  rewrite length_app, IH. cbn [length]. lia.
Qed.

Lemma binary_value_key_of n v :
  0 <= v < 2 ^ Z.of_nat n -> binary_value (key_of n v) = v.
Proof.
  revert v. induction n as [|n IH]; intros v Hv; cbn [key_of].
  - cbn in Hv. unfold binary_value. cbn. lia.
  - rewrite Nat2Z.inj_succ, Z.pow_succ_r in Hv by lia.
    rewrite binary_value_snoc, IH.
    + rewrite (Z.div_mod v 2) at 3 by lia. rewrite Zmod_odd.
      destruct (Z.odd v); cbn [Z.b2z]; lia.
    + split; [apply Z.div_pos; lia | apply Z.div_lt_upper_bound; lia].
Qed.

Lemma key_of_binary_value key : key_of (length key) (binary_value key) = key.
Proof.
  induction key as [|b key IH] using rev_ind; [reflexivity|].
  rewrite length_app. cbn [length].
  replace (length key + 1)%nat with (S (length key)) by lia.
  cbn [key_of]. rewrite binary_value_snoc.
  replace ((2 * binary_value key + Z.b2z b) / 2) with (binary_value key).
  - rewrite IH. f_equal. f_equal.
    rewrite Z.add_comm, Z.odd_add_mul_2. destruct b; reflexivity.
  - apply Z.div_unique with (r := Z.b2z b); destruct b; cbn; lia.
Qed.

(** X4: every value of [[0, max_value)] can be drawn, and by one key only:
    there is exactly one key of [max_value.bit_length()] characters on
    which [quantum_random_int] returns it at once. *)
Theorem quantum_random_int_reaches max_value v :
  0 <= v < max_value ->
  exists key,
    length key = bit_length max_value /\
    (forall rest w,
       quantum_random_int max_value (set_qbits w (key ++ rest)) =
         (Val v, set_qbits w rest)) /\
    (forall key',
       length key' = bit_length max_value -> binary_value key' = v ->
       key' = key).
Proof.
  intros Hv. exists (key_of (bit_length max_value) v).
  assert (binary_value (key_of (bit_length max_value) v) = v) as Hval.
  { apply binary_value_key_of. pose proof (bit_length_bound max_value). lia. }
  split; [apply key_of_length|]. split.
  - intros rest w. rewrite <- Hval at 2.
    apply quantum_random_int_accept; [apply key_of_length | lia].
  - intros key' Hlen <-. rewrite <- Hlen. symmetry. apply key_of_binary_value.
Qed.

Lemma quantum_random_int_reaches_witness :
  exists key,
    length key = 4%nat /\
    quantum_random_int 10 (coins_world (key ++ [true])) =
      (Val 9, coins_world [true]).
Proof.
  destruct (quantum_random_int_reaches 10 9) as (key & Hlen & Hret & _); [lia|].
  exists key. split; [exact Hlen|]. apply (Hret [true] (coins_world [])).
Defined.

(** ** Batch draws under the backend's contract *)

Lemma survivors_length max_value counts :
  (length (concat (map (survivors max_value) counts)) +
   rejected_shots max_value counts = shots counts)%nat.
Proof.
  induction counts as [|[key n] counts IH]; [reflexivity|].
  cbn [map concat shots rejected_shots fold_right fst snd].
  fold (shots counts). fold (rejected_shots max_value counts).
  set (tail := concat (map (survivors max_value) counts)) in *.
  rewrite length_app. unfold survivors. cbn [fst snd].
  destruct (binary_value key <? max_value); cbn [length];
    rewrite ?repeat_length; lia.
Qed.

(** X5: when the counts are those of [batch_size] shots, nothing is cut
    off by the final slice: the batch is all the in-range outcomes, and it
    is short of [batch_size] by exactly the number of shots that were out
    of range. *)
Theorem quantum_random_int_batch_short_by_rejected max_value batch_size counts :
  0 < max_value ->
  Forall (fun entry => length (fst entry) = bit_length max_value) counts ->
  Z.of_nat (shots counts) = batch_size ->
  exists values,
    quantum_random_int_batch max_value batch_size counts = Some values /\
    values = concat (map (survivors max_value) counts) /\
    Z.of_nat (length values) =
      batch_size - Z.of_nat (rejected_shots max_value counts).
Proof.
  intros Hmax Hkeys Hshots.
  pose proof (survivors_length max_value counts) as Hlen.
  exists (concat (map (survivors max_value) counts)).
  split; [|split; [reflexivity | lia]].
  apply quantum_random_int_batch_survivors. split.
  - eapply Forall_impl; [exact Hkeys|]. intros [key n] Hk Hnil.
    cbn [fst] in *. subst key. pose proof (bit_length_pos _ Hmax).
    cbn [length] in Hk. lia.
  - unfold slice_to. destruct (Z.leb_spec 0 batch_size); [|lia].
    symmetry. apply firstn_all2. lia.
Qed.

Lemma quantum_random_int_batch_short_by_rejected_witness :
  exists values,
    quantum_random_int_batch 10 5 five_shots = Some values /\
    Z.of_nat (length values) = 5 - 1.
Proof.
  destruct (quantum_random_int_batch_short_by_rejected 10 5 five_shots)
    as (values & Hv & _ & Hlen); [lia | repeat constructor | reflexivity |].
  exists values. split; [exact Hv | exact Hlen].
Defined.

(** ** The maze: where each coin ends up, and when generation fails *)

Ltac cmp_cases :=
  repeat match goal with
    | |- context [?a <=? ?b] => destruct (Z.leb_spec a b)
    | |- context [?a <? ?b] => destruct (Z.ltb_spec a b)
    | H : context [?a <=? ?b] |- _ => destruct (Z.leb_spec a b)
    | H : context [?a <? ?b] |- _ => destruct (Z.ltb_spec a b)
    end;
  cbn [andb negb] in *.

Lemma py_index_Some len i k :
  py_index len i = Some k <->
  index_ok (Z.of_nat len) i /\ k = Z.to_nat (norm_index (Z.of_nat len) i).
Proof.
  unfold index_ok, norm_index, py_index. split.
  - intros H. cmp_cases; try discriminate; injection H as <-; lia.
  - intros [Hi ->]. cmp_cases; first [reflexivity | exfalso; lia].
Qed.

Lemma py_index_None len i :
  py_index len i = None <-> ~ index_ok (Z.of_nat len) i.
Proof.
  unfold index_ok, py_index. split.
  - intros H. cmp_cases; try discriminate; lia.
  - intros Hi. cmp_cases; first [reflexivity | exfalso; lia].
Qed.

Lemma norm_index_range len i :
  index_ok len i -> 0 <= norm_index len i < len.
Proof. unfold index_ok, norm_index. intros Hi. cmp_cases; lia. Qed.

Lemma norm_index_nonneg len i : 0 <= i -> norm_index len i = i.
Proof. unfold norm_index. intros Hi. cmp_cases; lia. Qed.

Lemma square_row N (g : Grid) k :
  square N g -> (k < Z.to_nat N)%nat ->
  exists row, g !! k = Some row /\ length row = Z.to_nat N.
Proof.
  intros [Hlen Hrows] Hk.
  destruct (lookup_lt_is_Some_2 g k) as [row Hrow]; [lia|].
  exists row. split; [exact Hrow|].
  rewrite Forall_lookup in Hrows. exact (Hrows _ _ Hrow).
Qed.

(** What [grid[y][x] = v] does on an [N] by [N] grid: it raises unless
    both indices are acceptable, and else changes the one cell. *)
Lemma setitem2_square_inv N (g g' : Grid) y x v :
  square N g -> setitem2 g y x v = Some g' ->
  index_ok N y /\ index_ok N x /\
  exists row,
    g !! Z.to_nat (norm_index N y) = Some row /\ length row = Z.to_nat N /\
    g' = <[Z.to_nat (norm_index N y) := <[Z.to_nat (norm_index N x) := v]> row]> g.
Proof.
  intros Hsq. pose proof Hsq as [Hlen _].
  unfold setitem2, setitem, getitem.
  destruct (py_index (length g) y) as [ky|] eqn:Hky; [|discriminate].
  destruct (g !! ky) as [row|] eqn:Hrow; cbv beta iota; [|discriminate].
  destruct (py_index (length row) x) as [kx|] eqn:Hkx; cbv beta iota;
    [|discriminate].
  intros [= <-].
  apply py_index_Some in Hky as [Hy ->]. rewrite Hlen in Hy, Hrow.
  assert (0 < N) as HN by (unfold index_ok in Hy; lia).
  rewrite Z2Nat.id in Hy, Hrow by lia.
  pose proof (norm_index_range _ _ Hy) as Hny.
  destruct (square_row N g (Z.to_nat (norm_index N y)) Hsq) as (row0 & Hrow0 & Hl0);
    [lia|].
  assert (row0 = row) as -> by congruence.
  apply py_index_Some in Hkx as [Hx ->]. rewrite Hl0, Z2Nat.id in Hx by lia.
  rewrite Hlen, Hl0, !Z2Nat.id by lia.
  split; [exact Hy|]. split; [exact Hx|]. exists row. auto.
Qed.

Lemma setitem2_index_ok N (g : Grid) y x v :
  square N g -> index_ok N y -> index_ok N x ->
  exists g', setitem2 g y x v = Some g'.
Proof.
  intros Hsq Hy Hx. pose proof Hsq as [Hlen _].
  assert (0 < N) as HN by (unfold index_ok in Hy; lia).
  pose proof (norm_index_range _ _ Hy) as Hny.
  destruct (square_row N g (Z.to_nat (norm_index N y)) Hsq) as (row & Hrow & Hl);
    [lia|].
  unfold setitem2, setitem, getitem.
  assert (py_index (length g) y = Some (Z.to_nat (norm_index N y))) as ->.
  { apply py_index_Some. rewrite Hlen, Z2Nat.id by lia. auto. }
  rewrite Hrow.
  assert (py_index (length row) x = Some (Z.to_nat (norm_index N x))) as ->.
  { apply py_index_Some. rewrite Hl, Z2Nat.id by lia. auto. }
  eauto.
Qed.

Lemma setitem2_index_bad N (g : Grid) y x v :
  square N g -> ~ (index_ok N y /\ index_ok N x) -> setitem2 g y x v = None.
Proof.
  intros Hsq Hbad. destruct (setitem2 g y x v) as [g'|] eqn:H; [|reflexivity].
  apply (setitem2_square_inv N) in H; [|exact Hsq]. tauto.
Qed.

Lemma setitem2_get_other N (g g' : Grid) y x v y' x' :
  square N g -> setitem2 g y x v = Some g' ->
  0 <= x' < N -> 0 <= y' < N ->
  (x', y') <> (norm_index N x, norm_index N y) ->
  getitem2 g' y' x' = getitem2 g y' x'.
Proof.
  intros Hsq Hset Hx' Hy' Hne.
  pose proof (setitem2_square N g g' y x v Hset Hsq) as Hsq'.
  destruct (setitem2_square_inv N g g' y x v Hsq Hset)
    as (Hy & Hx & row & Hrow & Hl & ->).
  pose proof (norm_index_range _ _ Hy) as Hny.
  pose proof (norm_index_range _ _ Hx) as Hnx.
  destruct (square_row N g (Z.to_nat y') Hsq) as (row' & Hrow' & Hl'); [lia|].
  rewrite (getitem2_nonneg g x' y' row') by (lia || assumption).
  destruct (Z.eq_dec (norm_index N y) y') as [Hyy|Hyy].
  - subst y'. assert (row' = row) as -> by congruence.
    rewrite (getitem2_nonneg _ x' _ (<[Z.to_nat (norm_index N x) := v]> row));
      [|lia|lia|].
    + apply list_lookup_insert_ne. intros Heq. apply Hne. f_equal. lia.
    + apply list_lookup_insert_eq. destruct Hsq as [-> _]. lia.
  - rewrite (getitem2_nonneg _ x' y' row'); [reflexivity|lia|lia|].
    rewrite list_lookup_insert_ne by lia. exact Hrow'.
Qed.

Lemma lookup_rev {A : Type} (l : list A) i :
  (i < length l)%nat -> rev l !! i = l !! (length l - S i)%nat.
Proof. intros Hi. rewrite rev_alt. apply (reverse_lookup l i Hi). Qed.

(** The rows [maze_rows] builds, coin by coin. *)
Lemma maze_rows_cells rows size w grid w' :
  maze_rows rows size w = (Val grid, w') ->
  exists used,
    qbits w = used ++ qbits w' /\ length used = (rows * size)%nat /\
    forall y x, (y < rows)%nat -> (x < size)%nat ->
      exists row, grid !! y = Some row /\
                  row !! x = used !! (y * size + (size - S x))%nat.
Proof.
  revert w grid w'. induction rows as [|rows IH]; intros w grid w' H;
    cbn [maze_rows] in H.
  - apply ret_Val in H as [<- ->]. exists []. repeat split. intros; lia.
  - inv_bind H as bits w1 Hbits.
    apply measure_all_Val in Hbits as (Hq & Hlen & _).
    inv_bind H as rest w2 Hrest. apply IH in Hrest as (used & Hq1 & Hlu & Hcells).
    apply ret_Val in H as [<- ->].
    exists (bits ++ used). split; [|split].
    + rewrite Hq, Hq1, app_assoc. reflexivity.
    + rewrite length_app. lia.
    + intros y x Hy Hx. destruct y as [|y].
      * exists (map (fun bit : bool => bit) (rev bits)). split; [reflexivity|].
        rewrite map_id, lookup_rev by lia. rewrite Hlen.
        rewrite lookup_app_l by lia. reflexivity.
      * destruct (Hcells y x) as (row & Hrow & Hx'); [lia | lia |].
        exists row. split; [exact Hrow|]. rewrite Hx'.
        rewrite lookup_app_r by lia. f_equal. lia.
Qed.

(** X6: a grid that the generator returns is [size] by [size]; it used up
    exactly [size * size] coins, and every cell other than the start and
    the goal holds the coin drawn for it: cell [x] of row [y] is coin
    [y * size + (size - 1 - x)]. *)
Theorem maze_cells_are_coins size start goal w grid w' :
  quantum_maze_visibility size start goal w = (Val grid, w') ->
  square size grid /\
  exists used,
    qbits w = used ++ qbits w' /\
    length used = (Z.to_nat size * Z.to_nat size)%nat /\
    forall x y,
      0 <= x < size -> 0 <= y < size ->
      (x, y) <> (norm_index size (fst start), norm_index size (snd start)) ->
      (x, y) <> (norm_index size (fst (goal_or_centre size goal)),
                 norm_index size (snd (goal_or_centre size goal))) ->
      getitem2 grid y x = used !! Z.to_nat (y * size + (size - 1 - x)).
Proof.
  destruct start as [sx sy].
  assert (quantum_maze_visibility size (sx, sy) goal =
          quantum_maze_visibility size (sx, sy) (Some (goal_or_centre size goal)))
    as -> by (destruct goal; reflexivity).
  destruct (goal_or_centre size goal) as [gx gy]. cbn [fst snd].
  intros H. pose proof (quantum_maze_visibility_Val _ _ _ _ _ _ _ _ H) as [Hsq _].
  split; [exact Hsq|].
  unfold quantum_maze_visibility in H.
  inv_bind H as g0 w0 Hrows.
  pose proof (maze_rows_Val _ _ _ _ _ Hrows) as (Hlen & Hshape & _).
  assert (square size g0) as Hsq0 by (split; assumption).
  apply maze_rows_cells in Hrows as (used & Hq & Hlu & Hcells).
  inv_bind H as g1 w1 Hs. apply orraise_Val in Hs as [Hs ->].
  inv_bind H as g2 w2 Hg. apply orraise_Val in Hg as [Hg ->].
  apply ret_Val in H as [<- ->].
  exists used. split; [exact Hq|]. split; [exact Hlu|].
  intros x y Hx Hy Hns Hng.
  pose proof (setitem2_square _ _ _ _ _ _ Hs Hsq0) as Hsq1.
  rewrite (setitem2_get_other size g1 g2 gy gx true y x) by assumption.
  rewrite (setitem2_get_other size g0 g1 sy sx true y x) by assumption.
  destruct (Hcells (Z.to_nat y) (Z.to_nat x)) as (row & Hrow & Hcell); [lia..|].
  rewrite (getitem2_nonneg g0 x y row) by (lia || assumption).
  rewrite Hcell. f_equal. nia.
Qed.

Lemma maze_cells_are_coins_witness :
  let coins := [false; false; true; true; false; false; false; false; false] in
  let grid := [[true; false; false]; [false; true; true]; [false; false; false]] in
  quantum_maze_visibility 3 (0, 0) None (coins_world coins) =
    (Val grid, coins_world []) /\
  square 3 grid /\
  getitem2 grid 1 2 = coins !! Z.to_nat (1 * 3 + (3 - 1 - 2)).
Proof.
  intros coins grid.
  assert (quantum_maze_visibility 3 (0, 0) None (coins_world coins) =
            (Val grid, coins_world [])) as H by reflexivity.
  split; [exact H|].
  destruct (maze_cells_are_coins 3 (0, 0) None _ _ _ H)
    as (Hsq & used & Hq & Hlu & Hcells).
  split; [exact Hsq|]. reflexivity.
Defined.

(** X7: once the coins for [size] rows are there, the generator returns
    a grid when the start and the goal are indices Python accepts for a
    list of [size] items (negative ones count from the end), and raises
    [IndexError] otherwise; for [size <= 0] it always raises. *)
Theorem maze_generation_index_error size start goal w :
  (Z.to_nat size * Z.to_nat size <= length (qbits w))%nat ->
  let target := goal_or_centre size goal in
  let acceptable :=
    (index_ok size (snd start) /\ index_ok size (fst start)) /\
    (index_ok size (snd target) /\ index_ok size (fst target)) in
  (acceptable ->
   exists grid w', quantum_maze_visibility size start goal w = (Val grid, w')) /\
  (~ acceptable ->
   fst (quantum_maze_visibility size start goal w) = Exc IndexError).
Proof.
  intros Hcoins target acceptable. subst acceptable target.
  destruct start as [sx sy].
  assert (quantum_maze_visibility size (sx, sy) goal =
          quantum_maze_visibility size (sx, sy) (Some (goal_or_centre size goal)))
    as -> by (destruct goal; reflexivity).
  destruct (goal_or_centre size goal) as [gx gy]. cbn [fst snd].
  destruct (maze_rows_enough _ _ _ Hcoins) as (g0 & w0 & Hrows).
  pose proof (maze_rows_Val _ _ _ _ _ Hrows) as (Hlen & Hshape & _).
  assert (square size g0) as Hsq0 by (split; assumption).
  unfold quantum_maze_visibility, bind. rewrite Hrows. split.
  - intros [[Hsy Hsx] [Hgy Hgx]].
    destruct (setitem2_index_ok size g0 sy sx true Hsq0 Hsy Hsx) as [g1 Hs].
    pose proof (setitem2_square _ _ _ _ _ _ Hs Hsq0) as Hsq1.
    destruct (setitem2_index_ok size g1 gy gx true Hsq1 Hgy Hgx) as [g2 Hg].
    rewrite Hs. cbn [orraise ret]. rewrite Hg. eauto.
  - intros Hbad.
    destruct (setitem2 g0 sy sx true) as [g1|] eqn:Hs; [|reflexivity].
    cbn [orraise ret].
    pose proof (setitem2_square _ _ _ _ _ _ Hs Hsq0) as Hsq1.
    destruct (setitem2_square_inv size g0 g1 sy sx true Hsq0 Hs) as (Hsy & Hsx & _).
    rewrite (setitem2_index_bad size g1 gy gx true Hsq1); [reflexivity|tauto].
Qed.

Lemma maze_generation_index_error_witness :
  fst (quantum_maze_visibility 3 (3, 0) None (coins_world (replicate 9 true))) =
    Exc IndexError /\
  exists grid w',
    quantum_maze_visibility 3 (-1, -3) None (coins_world (replicate 9 true)) =
      (Val grid, w').
Proof.
  split.
  - apply (maze_generation_index_error 3 (3, 0) None (coins_world (replicate 9 true)));
      [cbn; lia|].
    unfold index_ok. cbn [fst snd]. lia.
  - apply (maze_generation_index_error 3 (-1, -3) None
             (coins_world (replicate 9 true))); [cbn; lia|].
    unfold index_ok, goal_or_centre. cbn [fst snd].
    change (3 / 2) with 1. lia.
Defined.

(** ** Moving there and back *)

(** X8: when a move takes both players to cells of the grid without any
    clamping, the opposite move takes both of them back. *)
Theorem entangled_move_undo x1 y1 x2 y2 dx dy N :
  in_bounds N (x1, y1) -> in_bounds N (x2, y2) ->
  0 <= x1 + dx <= N - 1 -> 0 <= y1 + dy <= N - 1 ->
  0 <= x2 - dx <= N - 1 -> 0 <= y2 - dy <= N - 1 ->
  let new := entangled_move (x1, y1) (x2, y2) (dx, dy) N in
  entangled_move (fst new) (snd new) (- dx, - dy) N = ((x1, y1), (x2, y2)).
Proof.
  unfold in_bounds, entangled_move. cbn [fst snd].
  intros [? ?] [? ?] ? ? ? ?. repeat f_equal; lia.
Qed.

Lemma entangled_move_undo_witness :
  let new := entangled_move (2, 2) (7, 7) (1, 0) 10 in
  entangled_move (fst new) (snd new) (- 1, - 0) 10 = ((2, 2), (7, 7)).
Proof.
  apply (entangled_move_undo 2 2 7 7 1 0 10); unfold in_bounds; cbn [fst snd]; lia.
Defined.

(** ** Restart *)

Lemma reset_state_two_cells g g' : reset_state g g' -> 2 <= grid_size g.
Proof.
  intros ((_ & _ & _ & _ & Hp1 & _) & _ & Hlen & Hes & _).
  destruct (enemies g') as [|[ex ey] es]; [discriminate|].
  inversion Hes as [|? ? [(_ & Hne & _) [Hx Hy]] _]; subst.
  rewrite Hp1 in Hne. cbn [fst snd] in *.
  destruct (Z.le_gt_cases 2 (grid_size g)) as [|Hsmall]; [assumption|].
  exfalso. apply Hne. f_equal; lia.
Qed.

(** X9: on a grid of size 1 or less [reset_game] returns no state,
    whatever the coins: no cell is left for an adversary. *)
Theorem reset_game_needs_two_cells g w g' w' :
  grid_size g <= 1 -> reset_game g w <> (Val g', w').
Proof.
  intros HN H. apply post_reset_game, reset_state_two_cells in H. lia.
Qed.

Lemma reset_game_needs_two_cells_witness :
  reset_game (fresh_game 1) (coins_world (replicate 40 true)) <>
    (Val (fresh_game 1), coins_world []).
Proof. apply reset_game_needs_two_cells. cbn. lia. Defined.

Lemma random_empty_cell_loop_ext fuel g1 g2 w :
  grid_size g1 = grid_size g2 -> maze g1 = maze g2 ->
  player1_pos g1 = player1_pos g2 -> player2_pos g1 = player2_pos g2 ->
  goal g1 = goal g2 ->
  random_empty_cell_loop fuel g1 w = random_empty_cell_loop fuel g2 w.
Proof.
  intros Hn Hm Hp1 Hp2 Hg. revert w.
  induction fuel as [|fuel IH]; intros w; [reflexivity|].
  cbn [random_empty_cell_loop]. unfold bind. rewrite Hn, Hm, Hp1, Hp2, Hg.
  destruct (quantum_random_int (grid_size g2) w) as [[x| | |] w1]; try reflexivity.
  destruct (quantum_random_int (grid_size g2) w1) as [[y| | |] w2]; try reflexivity.
  destruct (orraise IndexError (getitem2 (maze g2) y x) w2) as [[cell| | |] w3];
    try reflexivity.
  destruct (cell && _); [reflexivity | apply IH].
Qed.

Lemma comprehension_ext {A : Type} n (m1 m2 : M A) w :
  (forall w, m1 w = m2 w) -> comprehension n m1 w = comprehension n m2 w.
Proof.
  intros Hm. revert w. induction n as [|n IH]; intros w; [reflexivity|].
  cbn [comprehension]. unfold bind. rewrite Hm.
  destruct (m2 w) as [[a| | |] w1]; try reflexivity.
  rewrite IH. reflexivity.
Qed.

(** X10: a restart builds the game from the grid size and the coins
    alone, as the constructor does; of the state before it only
    [enemy_move_delay] and [enemy_move_counter] are kept, so the timer of
    the adversaries is not set back. *)
Theorem reset_game_keeps_only_timer g w :
  reset_game g w =
  match reset_game (fresh_game (grid_size g)) w with
  | (Val fresh, w') => (Val (with_timer_of g fresh), w')
  | other => other
  end.
Proof.
  unfold reset_game, bind. cbn [grid_size fresh_game set_goal goal].
  destruct (quantum_maze_visibility (grid_size g) (0, 0)
              (Some (grid_size g / 2, grid_size g / 2)) w) as [[m| | |] w1];
    try reflexivity.
  cbn [set_maze set_player1_pos set_player2_pos grid_size enemy_move_delay
         enemy_move_counter goal maze player1_pos player2_pos enemies running].
  match goal with
  | |- context [comprehension 3 (random_empty_cell ?ga) w1] =>
      match goal with
      | |- context [match comprehension 3 (random_empty_cell ?gb) w1 with _ => _ end
                    = _] =>
          rewrite (comprehension_ext 3 (random_empty_cell gb)
                     (random_empty_cell
                        (mkGame (grid_size g) 5 0
                           (grid_size g / 2, grid_size g / 2) m (0, 0)
                           (grid_size g - 1, grid_size g - 1) [] false)) w1)
      end
  end.
  - destruct (comprehension 3 _ w1) as [[es| | |] w2]; reflexivity.
  - intros w0. apply random_empty_cell_loop_ext; reflexivity.
Qed.

(** ** What holds all through an episode *)

Section Stable.

(** A property of the game that the constructor establishes and that
    restarting, moving the players, advancing the adversaries and
    stopping keep. *)
Variable P : Game -> Prop.
Hypothesis P_init : forall n, post (init n) P.
Hypothesis P_reset : forall g, P g -> post (reset_game g) P.
Hypothesis P_move : forall g move, P g -> post (move_players g move) P.
Hypothesis P_update : forall g, P g -> post (update g) P.
Hypothesis P_running : forall g b, P g -> P (set_running g b).

Lemma stable_handle_events evs g : P g -> post (handle_events evs g) P.
Proof.
  revert g. induction evs as [|ev evs IH]; intros g Hg; cbn [handle_events].
  - apply post_ret. exact Hg.
  - destruct ev as [|k|]; [apply IH, P_running, Hg | | apply IH, Hg].
    assert (forall move,
              post (g' <- move_players g move ;; handle_events evs g') P)
      as Hmove.
    { intros move. eapply post_bind; [apply P_move, Hg|]. intros g' Hg'.
      apply IH, Hg'. }
    destruct k; cbn [key_move]; try apply Hmove; try (apply IH; exact Hg).
    apply P_reset, Hg.
Qed.

Lemma stable_handle_input g : P g -> post (handle_input g) P.
Proof.
  intros Hg. unfold handle_input.
  eapply post_bind; [intros w evs w' _; exact I|].
  intros evs _. apply stable_handle_events, Hg.
Qed.

Lemma stable_end_screen_events evs g waiting :
  P g -> post (end_screen_events evs g waiting) (fun r => P (fst r)).
Proof.
  revert g waiting. induction evs as [|ev evs IH]; intros g waiting Hg;
    cbn [end_screen_events].
  - apply post_ret. exact Hg.
  - destruct ev as [|k|]; [intros w r w' H; discriminate | | apply IH, Hg].
    destruct k; try (apply IH, Hg); try (intros w r w' H; discriminate).
    eapply post_bind; [apply P_reset, Hg|]. intros g' Hg'. apply IH, Hg'.
Qed.

Lemma stable_end_screen_wait script g :
  P g -> post (end_screen_wait script g) P.
Proof.
  revert g. induction script as [|evs script IH]; intros g Hg w g' w' H;
    cbn [end_screen_wait] in H; [discriminate|].
  revert H. generalize (set_polls w script). clear w. intros w H.
  revert w g' w' H.
  change (post (bind (end_screen_events evs g true)
                  (fun r => if snd r then end_screen_wait script (fst r)
                            else ret (fst r))) P).
  eapply post_bind; [apply stable_end_screen_events, Hg|].
  intros [g1 b] Hg1. cbn [fst snd] in *.
  destruct b; [apply IH, Hg1 | apply post_ret, Hg1].
Qed.

Lemma stable_check_game_over g : P g -> post (check_game_over g) P.
Proof.
  intros Hg. unfold check_game_over.
  assert (forall g1 message,
            P g1 ->
            post (g' <- show_end_screen g1 message ;; ret (set_running g' false)) P)
    as Hscreen.
  { intros g1 message Hg1. apply (post_bind _ _ P).
    - intros w g' w' H. exact (stable_end_screen_wait _ _ Hg1 _ _ _ H).
    - intros g' Hg'. apply post_ret, P_running, Hg'. }
  eapply (post_bind _ _ P).
  - destruct (win_condition g); [apply Hscreen, Hg | apply post_ret, Hg].
  - intros g1 Hg1. destruct (loss_condition g1);
      [apply Hscreen, Hg1 | apply post_ret, Hg1].
Qed.

Lemma stable_reachable g : reachable g -> P g.
Proof.
  induction 1 as [n w g w' H | g w g' w' _ IH H | g w g' w' _ IH H
                 | g w g' w' _ IH H].
  - eapply P_init, H.
  - eapply stable_handle_input; eassumption.
  - eapply P_update; eassumption.
  - eapply stable_check_game_over; eassumption.
Qed.

End Stable.

Lemma is_valid_true g p : is_valid g p = Some true -> passable g p.
Proof.
  destruct p as [x y]. unfold is_valid, passable, in_bounds, is_open.
  cbn [fst snd].
  destruct ((0 <=? x) && (x <? grid_size g) && ((0 <=? y) && (y <? grid_size g)))
    eqn:Hb; [|discriminate].
  intros H. split; [|exact H].
  apply andb_true_iff in Hb as [Hx Hy].
  apply andb_true_iff in Hx as [Hx1 Hx2]. apply andb_true_iff in Hy as [Hy1 Hy2].
  lia.
Qed.

(** What [move_players] changes: the players' positions, each to a cell
    that is in bounds and open. *)
Lemma post_move_players_effect g move :
  post (move_players g move)
    (fun g' =>
       same_board g g' /\
       enemy_move_delay g' = enemy_move_delay g /\
       enemy_move_counter g' = enemy_move_counter g /\
       (player1_pos g' = player1_pos g \/ passable g (player1_pos g')) /\
       (player2_pos g' = player2_pos g \/ passable g (player2_pos g'))).
Proof.
  unfold move_players.
  destruct (entangled_move _ _ _ _) as [c1 c2].
  eapply post_bind;
    [apply (post_orraise _ _ (fun v => is_valid g c1 = Some v)); auto|].
  intros v1 Hv1.
  eapply post_bind;
    [apply (post_orraise _ _
       (fun v => is_valid (if v1 then set_player1_pos g c1 else g) c2 = Some v));
     auto|].
  intros v2 Hv2. apply post_ret.
  assert (is_valid g c2 = Some v2) as Hv2'.
  { destruct v1; [|exact Hv2]. destruct c2. exact Hv2. }
  unfold same_board.
  destruct v1, v2; cbn; repeat split; auto;
    right; apply is_valid_true; assumption.
Qed.

Lemma post_update_effect g :
  post (update g)
    (fun g' =>
       Forall2 (adversary_step g) (enemies g) (enemies g') /\
       grid_size g' = grid_size g /\ maze g' = maze g /\ goal g' = goal g /\
       player1_pos g' = player1_pos g /\ player2_pos g' = player2_pos g /\
       enemy_move_delay g' = enemy_move_delay g /\
       enemy_move_counter g' =
         (if enemy_move_delay g <=? enemy_move_counter g + 1 then 0
          else enemy_move_counter g + 1)).
Proof.
  unfold update. cbn [enemy_move_delay enemy_move_counter set_enemy_move_counter].
  destruct (enemy_move_delay g <=? enemy_move_counter g + 1).
  - eapply post_bind.
    + apply (post_for_each _ (adversary_step g)). intros e.
      eapply post_weaken; [apply post_enemy_step|]. intros e'.
      apply adversary_step_same_board; reflexivity.
    + intros es Hes. apply post_ret. cbn. auto 10.
  - apply post_ret. cbn. split; [apply adversary_step_stay | auto 10].
Qed.

Lemma reset_state_full g g' :
  timer_invariant g -> reset_state g g' -> full_invariant g'.
Proof.
  intros [Hd Hc] Hr. pose proof (reset_state_invariant _ _ Hr) as Hinv.
  pose proof (reset_state_two_cells _ _ Hr) as HN.
  destruct Hr as ((Hn & Hg & Hstart & Hgoal & Hp1 & Hp2) & Hsq & Hlen & Hes
                  & Hd' & Hc' & _).
  split; [exact Hinv|]. split; [|split].
  - unfold board_invariant. rewrite Hn. auto.
  - unfold timer_invariant. rewrite Hd', Hc'. auto.
  - unfold players_invariant, passable, in_bounds. rewrite Hn, Hp1, Hp2.
    cbn [fst snd]. repeat split; try lia; auto.
Qed.

Lemma full_invariant_reset g : full_invariant g -> post (reset_game g) full_invariant.
Proof.
  intros (_ & _ & Ht & _). eapply post_weaken; [apply post_reset_game|].
  intros g'. apply reset_state_full, Ht.
Qed.

Lemma full_invariant_init n : post (init n) full_invariant.
Proof.
  unfold init. eapply post_weaken; [apply post_reset_game|].
  intros g'. apply reset_state_full. unfold timer_invariant. cbn. lia.
Qed.

Lemma full_invariant_move g move :
  full_invariant g -> post (move_players g move) full_invariant.
Proof.
  intros (He & Hb & Ht & Hp1 & Hp2 & Hp2').
  eapply post_weaken; [apply post_move_players_effect|].
  intros g' ((Hn & Hm & Hg & Hes) & Hd & Hc & H1 & H2).
  assert (passable g (player1_pos g')) as H1'
    by (destruct H1 as [->|H1]; assumption).
  assert (in_bounds (grid_size g) (player2_pos g') /\
          (player2_pos g' = (grid_size g - 1, grid_size g - 1) \/
           is_open (maze g) (player2_pos g'))) as H2'.
  { destruct H2 as [->|[H2 H2']]; [split; assumption | split; [|right]; assumption]. }
  unfold full_invariant, episode_invariant, board_invariant, timer_invariant,
    players_invariant, passable in *.
  rewrite Hn, Hm, Hg, Hes, Hd, Hc. tauto.
Qed.

Lemma full_invariant_update g :
  full_invariant g -> post (update g) full_invariant.
Proof.
  intros ((Hsq & Hes) & (HN & Hg & Hs & Hgo & Hlen) & (Hd & Hc) & Hp).
  eapply post_weaken; [apply post_update_effect|].
  intros g' (Hstep & Hn & Hm & Hg' & Hp1 & Hp2 & Hd' & Hc').
  pose proof (adversary_steps_passable g _ _ Hstep Hes) as Hes'.
  assert (length (enemies g') = 3%nat) as Hlen'
    by (rewrite <- (Forall2_length _ _ _ Hstep); exact Hlen).
  assert (0 <= (if 5 <=? enemy_move_counter g + 1 then 0
                else enemy_move_counter g + 1) < 5) as Hc''
    by (destruct (Z.leb_spec 5 (enemy_move_counter g + 1)); lia).
  unfold full_invariant, episode_invariant, board_invariant, timer_invariant,
    players_invariant, passable in *.
  rewrite Hn, Hm, Hg', Hp1, Hp2, Hd', Hc', Hd. tauto.
Qed.

Lemma full_invariant_running g b :
  full_invariant g -> full_invariant (set_running g b).
Proof. intros H. exact H. Qed.

Lemma reachable_full g : reachable g -> full_invariant g.
Proof.
  apply stable_reachable.
  - apply full_invariant_init.
  - apply full_invariant_reset.
  - apply full_invariant_move.
  - apply full_invariant_update.
  - apply full_invariant_running.
Qed.

(** X11: in every state of an episode the grid has at least two cells a
    side, the goal is its centre, the start and the goal are open, and
    there are exactly three adversaries, all within the grid. *)
Theorem episode_board g :
  reachable g ->
  board_invariant g /\ square (grid_size g) (maze g) /\
  Forall (in_bounds (grid_size g)) (enemies g).
Proof.
  intros Hg. apply reachable_full in Hg as ((Hsq & Hes) & Hb & _).
  split; [exact Hb|]. split; [exact Hsq|].
  eapply Forall_impl; [exact Hes|]. unfold passable. cbv beta. tauto.
Qed.

Lemma episode_board_witness :
  board_invariant corner_game /\ square 10 (maze corner_game) /\
  Forall (in_bounds 10) (enemies corner_game).
Proof. apply (episode_board corner_game). exact corner_game_reachable. Defined.

(** X12: in every state of an episode player 1 stands on an open cell of
    the grid; player 2 is within the grid and either still in the corner
    it starts from or on an open cell. *)
Theorem episode_players g : reachable g -> players_invariant g.
Proof. intros Hg. apply reachable_full in Hg. apply Hg. Qed.

Lemma episode_players_witness : players_invariant corner_game.
Proof. apply episode_players. exact corner_game_reachable. Defined.

(** X13: in every state of an episode [enemy_move_delay] is 5 and the
    counter of [update] is one of 0, ..., 4, restarts included. *)
Theorem episode_timer g : reachable g -> timer_invariant g.
Proof. intros Hg. apply reachable_full in Hg. apply Hg. Qed.

Lemma episode_timer_witness : timer_invariant corner_game.
Proof. apply episode_timer. exact corner_game_reachable. Defined.

(** ** The timer of the adversaries *)

Lemma set_enemy_move_counter_same g c :
  c = enemy_move_counter g -> set_enemy_move_counter g c = g.
Proof. intros ->. destruct g. reflexivity. Qed.

(** X14: while the counter stays below [enemy_move_delay], calls of
    [update] only count: [k] of them in a row leave the adversaries and
    the generator of [random] alone and add [k] to the counter. *)
Theorem updates_only_count g k w :
  enemy_move_counter g + Z.of_nat k < enemy_move_delay g ->
  updates k g w =
    (Val (set_enemy_move_counter g (enemy_move_counter g + Z.of_nat k)), w).
Proof.
  revert g. induction k as [|k IH]; intros g Hk; cbn [updates].
  - rewrite set_enemy_move_counter_same by (cbn; lia). reflexivity.
  - unfold bind, update.
    cbn [enemy_move_delay enemy_move_counter set_enemy_move_counter].
    destruct (Z.leb_spec (enemy_move_delay g) (enemy_move_counter g + 1)); [lia|].
    cbn [ret]. rewrite IH by (cbn; lia).
    cbn [enemy_move_counter set_enemy_move_counter]. do 2 f_equal.
    unfold set_enemy_move_counter. cbn. f_equal. lia.
Qed.

Lemma updates_only_count_witness :
  updates 4 corner_game (mkWorld [] [7%nat] [] []) =
    (Val (set_enemy_move_counter corner_game 4), mkWorld [] [7%nat] [] []).
Proof.
  apply (updates_only_count corner_game 4 (mkWorld [] [7%nat] [] [])).
  cbn. lia.
Defined.

Lemma random_choice_Val {A : Type} (seq : list A) w a w' :
  random_choice seq w = (Val a, w') ->
  exists r, rng w = r :: rng w' /\ w' = set_rng w (rng w').
Proof.
  unfold random_choice. destruct (rng w) as [|r rest] eqn:Hr; [discriminate|].
  destruct (seq !! (r mod length seq)%nat); [|discriminate].
  intros [= _ <-]. exists r. cbn. auto.
Qed.

Lemma enemy_step_Val g e w e' w' :
  enemy_step g e w = (Val e', w') ->
  exists r, rng w = r :: rng w' /\ w' = set_rng w (rng w').
Proof.
  destruct e as [ex ey]. unfold enemy_step. intros H.
  inv_bind H as move w1 Hmove. apply random_choice_Val in Hmove as (r & Hr & Hw1).
  assert (w' = w1) as ->.
  { destruct ((0 <=? ex + fst move) && _ && _).
    - inv_bind H as cell w2 Hcell. apply orraise_Val in Hcell as [_ ->].
      destruct cell; apply ret_Val in H as [_ ->]; reflexivity.
    - apply ret_Val in H as [_ ->]. reflexivity. }
  eauto.
Qed.

Lemma for_each_enemy_step_Val g (es es' : list pos) w w' :
  for_each (enemy_step g) es w = (Val es', w') ->
  exists used,
    rng w = used ++ rng w' /\ length used = length es /\
    w' = set_rng w (rng w').
Proof.
  revert es' w w'. induction es as [|e es IH]; intros es' w w' H;
    cbn [for_each] in H.
  - apply ret_Val in H as [_ ->]. exists []. destruct w. auto.
  - inv_bind H as e' w1 He. apply enemy_step_Val in He as (r & Hr & Hw1).
    inv_bind H as rest w2 Hrest. apply IH in Hrest as (used & Hu & Hl & Hw2).
    apply ret_Val in H as [_ ->].
    exists (r :: used). cbn [length app]. split; [|split].
    + rewrite Hr, Hu. reflexivity.
    + congruence.
    + rewrite Hw2 at 1. rewrite Hw1. reflexivity.
Qed.

(** X15: the call of [update] that brings the counter to
    [enemy_move_delay] sets it back to 0 and advances the adversaries: it
    takes one choice of [random] for each of them, keeps their number,
    and touches nothing else outside the game. *)
Theorem update_advance g w g' w' :
  enemy_move_delay g <= enemy_move_counter g + 1 ->
  update g w = (Val g', w') ->
  enemy_move_counter g' = 0 /\
  length (enemies g') = length (enemies g) /\
  exists used,
    rng w = used ++ rng w' /\ length used = length (enemies g) /\
    w' = set_rng w (rng w').
Proof.
  intros Hwrap H.
  pose proof (post_update_effect g _ _ _ H) as (Hstep & _ & _ & _ & _ & _ & _ & Hc).
  split; [|split].
  - rewrite Hc. destruct (Z.leb_spec (enemy_move_delay g) (enemy_move_counter g + 1)); lia.
  - symmetry. eapply Forall2_length. exact Hstep.
  - unfold update in H.
    cbn [enemy_move_delay enemy_move_counter set_enemy_move_counter] in H.
    destruct (Z.leb_spec (enemy_move_delay g) (enemy_move_counter g + 1)); [|lia].
    inv_bind H as es w1 Hes. apply ret_Val in H as [_ ->].
    apply for_each_enemy_step_Val in Hes. exact Hes.
Qed.

Lemma update_advance_witness :
  exists g' w',
    update (set_enemy_move_counter corner_game 4)
      (mkWorld [] [0; 4; 2]%nat [] []) = (Val g', w') /\
    enemy_move_counter g' = 0 /\ length (enemies g') = 3%nat /\ rng w' = [].
Proof.
  eexists _, _. split; [vm_compute; reflexivity|].
  destruct (update_advance (set_enemy_move_counter corner_game 4)
              (mkWorld [] [0; 4; 2]%nat [] []) _ _ ltac:(cbn; lia) eq_refl)
    as (Hc & Hlen & _).
  split; [exact Hc|]. split; [exact Hlen | reflexivity].
Defined.

(** ** The win/loss check *)

Lemma check_game_over_shown g w :
  shown (snd (check_game_over g w)) =
    shown w ++ (if win_condition g then [win_message]
                else if loss_condition g then [lose_message] else []).
Proof.
  unfold check_game_over, bind. destruct (win_condition g).
  - pose proof (show_end_screen_shown g win_message w) as Hs.
    pose proof (post_show_end_screen g win_message w) as Hp.
    destruct (show_end_screen g win_message w) as [[g1| | |] w1];
      cbn [snd] in Hs; try exact Hs.
    cbn [ret]. destruct (Hp g1 w1 eq_refl) as [g0 Hr].
    rewrite (reset_state_no_loss g0 g1 false Hr). exact Hs.
  - cbn [ret]. destruct (loss_condition g).
    + pose proof (show_end_screen_shown g lose_message w) as Hs.
      destruct (show_end_screen g lose_message w) as [[g1| | |] w1];
        cbn [snd] in Hs; exact Hs.
    + cbn [snd]. rewrite app_nil_r. reflexivity.
Qed.

(** X16: [check_game_over] puts up the win screen when a player is on the
    goal, else the loss screen when a player shares a cell with an
    adversary, else no screen; never two of them. *)
Theorem check_game_over_screens g w :
  screens_since w (check_game_over g w) =
    if win_condition g then [win_message]
    else if loss_condition g then [lose_message] else [].
Proof.
  unfold screens_since. rewrite check_game_over_shown. apply drop_app_length.
Qed.

Lemma only_size_reset g0 g :
  grid_size g = grid_size g0 ->
  post (reset_game g) (fun g' => grid_size g' = grid_size g0).
Proof.
  intros Hn. eapply post_weaken; [apply post_reset_game|].
  intros g' ((Hn' & _) & _). congruence.
Qed.

Lemma post_show_end_screen_size g message :
  post (show_end_screen g message)
    (fun g' => grid_size g' = grid_size g /\ exists g0, reset_state g0 g').
Proof.
  intros w g' w' H. split.
  - unfold show_end_screen in H.
    apply (stable_end_screen_wait (fun g' => grid_size g' = grid_size g)
             (only_size_reset g) _ g eq_refl _ _ _ H).
  - eapply post_show_end_screen. exact H.
Qed.

Lemma check_game_over_Val g w g' w' :
  check_game_over g w = (Val g', w') ->
  (win_condition g || loss_condition g = true ->
   running g' = false /\ grid_size g' = grid_size g /\
   player1_pos g' = (0, 0) /\
   player2_pos g' = (grid_size g - 1, grid_size g - 1) /\
   length (enemies g') = 3%nat) /\
  (win_condition g || loss_condition g = false -> g' = g /\ w' = w).
Proof.
  unfold check_game_over. intros H.
  assert (forall g1 w1 message,
            grid_size g1 = grid_size g ->
            (g2 <- show_end_screen g1 message ;; ret (set_running g2 false)) w1 =
              (Val g', w') ->
            running g' = false /\ grid_size g' = grid_size g /\
            player1_pos g' = (0, 0) /\
            player2_pos g' = (grid_size g - 1, grid_size g - 1) /\
            length (enemies g') = 3%nat) as Hscreen.
  { intros g1 w1 message Hn Hs. inv_bind Hs as g2 w2 Hg2.
    apply post_show_end_screen_size in Hg2 as (Hn2 & g0 & Hr).
    apply ret_Val in Hs as [<- _].
    destruct Hr as ((Hn0 & _ & _ & _ & Hp1 & Hp2) & _ & Hlen & _).
    cbn. rewrite Hp1, Hp2, Hlen. rewrite <- Hn0, Hn2, Hn. auto. }
  inv_bind H as g1 w1 Hfirst.
  destruct (win_condition g) eqn:Hwin.
  - cbn [orb]. split; [intros _ | discriminate].
    pose proof (Hscreen g w win_message eq_refl) as Hw.
    inv_bind Hfirst as g2 w2 Hg2.
    pose proof (post_show_end_screen g win_message _ _ _ Hg2) as [g0 Hr].
    apply ret_Val in Hfirst as [<- <-].
    rewrite (reset_state_no_loss g0 g2 false Hr) in H.
    apply ret_Val in H as [<- <-].
    apply Hw. unfold bind. rewrite Hg2. reflexivity.
  - apply ret_Val in Hfirst as [<- ->]. cbn [orb].
    destruct (loss_condition g) eqn:Hloss.
    + split; [intros _ | discriminate]. eapply Hscreen; [reflexivity | exact H].
    + split; [discriminate | intros _]. apply ret_Val in H as [<- ->]. auto.
Qed.

(** X17: a call of [check_game_over] that found the game won or lost and
    returns has restarted it (same size, players back in their corners,
    three adversaries) and leaves [running] false, so the main loop ends;
    a call that found neither returns the game and the world as they
    were. *)
Theorem check_game_over_stops g w g' w' :
  check_game_over g w = (Val g', w') ->
  (win_condition g || loss_condition g = true ->
   running g' = false /\ grid_size g' = grid_size g /\
   player1_pos g' = (0, 0) /\
   player2_pos g' = (grid_size g - 1, grid_size g - 1) /\
   length (enemies g') = 3%nat) /\
  (win_condition g || loss_condition g = false -> g' = g /\ w' = w).
Proof. apply check_game_over_Val. Qed.

Lemma check_game_over_stops_witness :
  exists g' w',
    check_game_over won_and_caught restart_world = (Val g', w') /\
    running g' = false /\ player1_pos g' = (0, 0) /\ player2_pos g' = (9, 9).
Proof.
  assert (exists g' w',
            check_game_over won_and_caught restart_world = (Val g', w'))
    as (g' & w' & H) by (eexists _, _; vm_compute; reflexivity).
  exists g', w'. split; [exact H|].
  destruct (check_game_over_stops won_and_caught restart_world g' w' H)
    as [Hstop _].
  destruct (Hstop eq_refl) as (Hrun & _ & Hp1 & Hp2 & _).
  split; [exact Hrun|]. split; [exact Hp1 | exact Hp2].
Defined.

(** ** The window and what [draw] puts on it *)

(** X18: for a grid of [N >= 1] cells a side [__init__] gets a cell size
    between 20 and 60 pixels, and the window of [N * cell_size] pixels is
    no larger than 600 exactly when [N <= 30]. *)
Theorem cell_size_fits N :
  1 <= N ->
  exists c,
    cell_size_of N = Some c /\ 20 <= c <= 60 /\ (N * c <= 600 <-> N <= 30).
Proof.
  intros HN. unfold cell_size_of.
  destruct (Z.eqb_spec N 0) as [->|_]; [lia|].
  eexists. split; [reflexivity|].
  pose proof (Z.mul_div_le 600 N ltac:(lia)) as Hlo.
  pose proof (Z.mul_succ_div_gt 600 N ltac:(lia)) as Hhi.
  set (q := 600 / N) in *.
  split; [lia|]. split; intros H.
  - assert (N * 20 <= N * Z.min 60 (Z.max 20 q)) by (apply Z.mul_le_mono_nonneg_l; lia).
    lia.
  - assert (20 <= q) by nia.
    assert (N * Z.min 60 (Z.max 20 q) <= N * q) by (apply Z.mul_le_mono_nonneg_l; lia).
    lia.
Qed.

Lemma cell_size_fits_witness :
  exists c, cell_size_of 10 = Some c /\ 20 <= c <= 60 /\ (10 * c <= 600 <-> 10 <= 30).
Proof. apply cell_size_fits. lia. Defined.

Lemma pixel_over_app under cmds1 cmds2 px py :
  pixel_over under (cmds1 ++ cmds2) px py =
  pixel_over (pixel_over under cmds1 px py) cmds2 px py.
Proof. unfold pixel_over. apply fold_left_app. Qed.

Lemma pixel_over_cons under cmd cmds px py :
  pixel_over under (cmd :: cmds) px py =
  pixel_over (match paints cmd px py with Some c => Some c | None => under end)
    cmds px py.
Proof. reflexivity. Qed.

Section OnePixel.

(** A display, where the board starts on it, a cell of the board and a
    pixel inside the square of that cell. *)
Variable d : Display.
Variables offset_x offset_y : Z.
Variables x y px py : Z.
Hypothesis cell_positive : 0 < cell_size d.
Hypothesis px_in_cell :
  offset_x + x * cell_size d <= px < offset_x + x * cell_size d + cell_size d.
Hypothesis py_in_cell :
  offset_y + y * cell_size d <= py < offset_y + y * cell_size d + cell_size d.

Lemma paints_cell_rect c q :
  paints (cell_rect d offset_x offset_y c q) px py =
    if pos_eqb (x, y) q then Some c else None.
Proof.
  destruct q as [qx qy]. unfold cell_rect, paints, pos_eqb. cbn [fst snd].
  destruct (Z.eqb_spec x qx) as [<-|Hx], (Z.eqb_spec y qy) as [<-|Hy];
    cbn [andb]; cmp_cases; first [reflexivity | exfalso; nia].
Qed.

Lemma pixel_over_cell_rects under c (ps : list pos) :
  pixel_over under (map (cell_rect d offset_x offset_y c) ps) px py =
    if pos_in (x, y) ps then Some c else under.
Proof.
  revert under. induction ps as [|q ps IH]; intros under; [reflexivity|].
  cbn [map]. rewrite pixel_over_cons, paints_cell_rect, IH.
  unfold pos_in. cbn [existsb].
  destruct (pos_eqb (x, y) q), (existsb (pos_eqb (x, y)) ps); reflexivity.
Qed.

Lemma pixel_over_draw_cells g under y' xs cmds cell :
  draw_cells g d offset_x offset_y y' xs = Some cmds ->
  getitem2 (maze g) y x = Some cell ->
  pixel_over under cmds px py =
    if (y =? y') && existsb (Z.eqb x) xs
    then Some (if negb cell then (50, 50, 50) else (200, 200, 200))
    else under.
Proof.
  intros H Hcell. revert under cmds H.
  induction xs as [|x0 xs IH]; intros under cmds H; cbn [draw_cells] in H.
  - injection H as <-. rewrite andb_false_r. reflexivity.
  - destruct (getitem2 (maze g) y' x0) as [cell0|] eqn:Hcell0; [|discriminate].
    destruct (draw_cells g d offset_x offset_y y' xs) as [rest|]; [|discriminate].
    injection H as <-.
    rewrite pixel_over_cons, paints_cell_rect, (IH _ rest eq_refl).
    unfold pos_eqb. cbn [fst snd existsb].
    destruct (Z.eqb_spec x x0) as [<-|Hx], (Z.eqb_spec y y') as [<-|Hy];
      cbn [andb orb]; try reflexivity.
    + assert (cell0 = cell) as -> by congruence.
      destruct (existsb (Z.eqb x) xs); reflexivity.
Qed.

Lemma pixel_over_draw_rows g under ys cmds cell :
  draw_rows g d offset_x offset_y ys = Some cmds ->
  getitem2 (maze g) y x = Some cell ->
  pixel_over under cmds px py =
    if existsb (Z.eqb y) ys && existsb (Z.eqb x) (range (grid_size g))
    then Some (if negb cell then (50, 50, 50) else (200, 200, 200))
    else under.
Proof.
  intros H Hcell. revert under cmds H.
  induction ys as [|y0 ys IH]; intros under cmds H; cbn [draw_rows] in H.
  - injection H as <-. reflexivity.
  - destruct (draw_cells g d offset_x offset_y y0 (range (grid_size g)))
      as [row|] eqn:Hrow; [|discriminate].
    destruct (draw_rows g d offset_x offset_y ys) as [rest|]; [|discriminate].
    injection H as <-.
    rewrite pixel_over_app, (pixel_over_draw_cells g _ _ _ _ cell Hrow Hcell),
      (IH _ rest eq_refl).
    cbn [existsb].
    destruct (y =? y0), (existsb (Z.eqb y) ys),
      (existsb (Z.eqb x) (range (grid_size g))); reflexivity.
Qed.

End OnePixel.

Lemma range_spec n i : In i (range n) <-> 0 <= i < n.
Proof.
  unfold range. rewrite in_map_iff. split.
  - intros (k & <- & Hk). apply in_seq in Hk. lia.
  - intros Hi. exists (Z.to_nat i). split; [lia|]. apply in_seq. lia.
Qed.

Lemma existsb_range n i : 0 <= i < n -> existsb (Z.eqb i) (range n) = true.
Proof.
  intros Hi. apply existsb_exists. exists i.
  split; [apply range_spec, Hi | apply Z.eqb_refl].
Qed.

Lemma draw_cells_square g d ox oy y xs :
  square (grid_size g) (maze g) -> 0 <= y < grid_size g ->
  Forall (fun x => 0 <= x < grid_size g) xs ->
  exists cmds,
    draw_cells g d ox oy y xs = Some cmds /\ length cmds = length xs /\
    Forall (fun cmd => exists c q, in_bounds (grid_size g) q /\
                                   cmd = cell_rect d ox oy c q) cmds.
Proof.
  intros Hsq Hy Hxs. induction Hxs as [|x xs Hx _ IH]; cbn [draw_cells].
  - exists []. repeat split. constructor.
  - destruct (getitem2_square _ (maze g) x y Hsq Hx Hy) as [cell ->].
    destruct IH as (cmds & -> & Hl & Hall). eexists. split; [reflexivity|].
    cbn [length]. split; [congruence|]. constructor; [|exact Hall].
    eexists _, (x, y). split; [|reflexivity]. split; assumption.
Qed.

Lemma Forall_range n : Forall (fun i => 0 <= i < n) (range n).
Proof. apply List.Forall_forall. intros i. apply range_spec. Qed.

Lemma range_length n : length (range n) = Z.to_nat n.
Proof. unfold range. rewrite length_map, length_seq. reflexivity. Qed.

Lemma draw_rows_square g d ox oy ys :
  square (grid_size g) (maze g) ->
  Forall (fun y => 0 <= y < grid_size g) ys ->
  exists cmds,
    draw_rows g d ox oy ys = Some cmds /\
    length cmds = (length ys * Z.to_nat (grid_size g))%nat /\
    Forall (fun cmd => exists c q, in_bounds (grid_size g) q /\
                                   cmd = cell_rect d ox oy c q) cmds.
Proof.
  intros Hsq Hys. induction Hys as [|y ys Hy _ IH]; cbn [draw_rows].
  - exists []. repeat split. constructor.
  - destruct (draw_cells_square g d ox oy y (range (grid_size g)) Hsq Hy
                (Forall_range _)) as (row & -> & Hlr & Hrow).
    destruct IH as (cmds & -> & Hl & Hall). eexists. split; [reflexivity|].
    split; [|apply Forall_app; split; assumption].
    rewrite length_app, Hlr, Hl, range_length. cbn [length]. lia.
Qed.

(** X19: on an [N] by [N] maze [draw] succeeds, with one rectangle for
    each cell, the goal, each player and each adversary between the fill
    and the flip; and a pixel inside the square of a cell of the board
    ends up in the colour of what is on that cell: an adversary hides
    player 2, who hides player 1, who hides the goal, which hides the
    maze. *)
Theorem draw_shows_topmost g d x y px py :
  0 < cell_size d ->
  square (grid_size g) (maze g) -> in_bounds (grid_size g) (x, y) ->
  let offset_x := (screen_width d - grid_size g * cell_size d) / 2 in
  let offset_y := (screen_height d - grid_size g * cell_size d) / 2 in
  offset_x + x * cell_size d <= px < offset_x + x * cell_size d + cell_size d ->
  offset_y + y * cell_size d <= py < offset_y + y * cell_size d + cell_size d ->
  exists cmds open,
    draw g d = Some cmds /\
    length cmds =
      (Z.to_nat (grid_size g) * Z.to_nat (grid_size g) + 5 +
       length (enemies g))%nat /\
    getitem2 (maze g) y x = Some open /\
    pixel_over None cmds px py = Some (cell_colour g (x, y) open).
Proof.
  intros Hc Hsq [Hx Hy] ox oy Hpx Hpy. cbn [fst snd] in Hx, Hy.
  destruct (getitem2_square _ (maze g) x y Hsq Hx Hy) as [open Hopen].
  destruct (draw_rows_square g d ox oy (range (grid_size g)) Hsq (Forall_range _))
    as (cells & Hcells & Hlen & _).
  unfold draw. fold ox oy. rewrite Hcells.
  eexists _, open. split; [reflexivity|]. split; [|split; [exact Hopen|]].
  - rewrite !length_app, length_map, Hlen, range_length. cbn [length]. lia.
  - rewrite pixel_over_app, pixel_over_cons. cbn [paints pixel_over fold_left].
    fold (pixel_over (Some (0, 0, 0)) (cells ++
            [cell_rect d ox oy (0, 255, 0) (goal g);
             cell_rect d ox oy (0, 0, 255) (player1_pos g);
             cell_rect d ox oy (255, 0, 255) (player2_pos g)] ++
            map (cell_rect d ox oy (255, 0, 0)) (enemies g) ++ [Flip]) px py).
    rewrite pixel_over_app.
    rewrite (pixel_over_draw_rows d ox oy x y px py Hc Hpx Hpy g _ _ _ open
               Hcells Hopen).
    rewrite !existsb_range by assumption. cbn [andb].
    rewrite !pixel_over_app.
    rewrite (pixel_over_cell_rects d ox oy x y px py Hc Hpx Hpy).
    rewrite !pixel_over_cons, !(paints_cell_rect d ox oy x y px py Hc Hpx Hpy).
    cbn [pixel_over fold_left paints]. unfold cell_colour.
    destruct (pos_in (x, y) (enemies g)), (pos_eqb (x, y) (player2_pos g)),
      (pos_eqb (x, y) (player1_pos g)), (pos_eqb (x, y) (goal g)), open;
      reflexivity.
Qed.

Lemma draw_shows_topmost_witness :
  exists cmds,
    draw corner_game (mkDisplay 60 600 600) = Some cmds /\
    pixel_over None cmds 70 10 = Some (255, 0, 0).
Proof.
  destruct (draw_shows_topmost corner_game (mkDisplay 60 600 600) 1 0 70 10)
    as (cmds & open & Hdraw & _ & _ & Hpixel).
  - cbn. lia.
  - split; [reflexivity|]. repeat constructor.
  - unfold in_bounds. cbn. lia.
  - vm_compute. split; [discriminate | reflexivity].
  - vm_compute. split; [discriminate | reflexivity].
  - exists cmds. split; [exact Hdraw|]. rewrite Hpixel. reflexivity.
Defined.

Lemma display_of_Some N d :
  display_of N = Some d ->
  20 <= cell_size d /\ screen_width d = N * cell_size d /\
  screen_height d = N * cell_size d.
Proof.
  unfold display_of, cell_size_of.
  destruct (N =? 0); [discriminate|]. intros [= <-]. cbn. lia.
Qed.

Lemma cell_rect_inside N d c q :
  20 <= cell_size d -> screen_width d = N * cell_size d ->
  screen_height d = N * cell_size d -> in_bounds N q ->
  inside d (cell_rect d 0 0 c q).
Proof.
  intros Hc Hw Hh [Hx Hy]. unfold inside, cell_rect. rewrite Hw, Hh. nia.
Qed.

(** X20: in every state of an episode, on the display the constructor
    sets up for its grid, the board is not offset and every rectangle
    [draw] paints lies within the window. *)
Theorem draw_stays_in_window g d :
  reachable g -> display_of (grid_size g) = Some d ->
  exists cmds, draw g d = Some cmds /\ Forall (inside d) cmds.
Proof.
  intros Hg Hd. apply display_of_Some in Hd as (Hc & Hw & Hh).
  apply reachable_full in Hg
    as ((Hsq & Hes) & (HN & Hgoal & _) & _ & (Hp1 & _) & Hp2 & _).
  unfold draw. rewrite Hw, Hh, Z.sub_diag. change (0 / 2) with 0.
  destruct (draw_rows_square g d 0 0 (range (grid_size g)) Hsq (Forall_range _))
    as (cells & -> & _ & Hcells).
  eexists. split; [reflexivity|].
  assert (forall c q, in_bounds (grid_size g) q -> inside d (cell_rect d 0 0 c q))
    as Hin by (intros c q; apply cell_rect_inside; assumption).
  assert (in_bounds (grid_size g) (goal g)) as Hg'.
  { rewrite Hgoal. unfold in_bounds. cbn [fst snd].
    pose proof (Z.div_pos (grid_size g) 2 ltac:(lia) ltac:(lia)).
    pose proof (Z.div_lt_upper_bound (grid_size g) 2 (grid_size g)
                  ltac:(lia) ltac:(lia)). lia. }
  repeat apply Forall_app_2.
  - repeat constructor.
  - eapply Forall_impl; [exact Hcells|]. intros cmd (c & q & Hq & ->). auto.
  - constructor; [apply Hin, Hg'|]. constructor; [apply Hin, Hp1|].
    constructor; [apply Hin, Hp2|]. constructor.
  - apply Forall_map. eapply Forall_impl; [exact Hes|].
    intros q [Hq _]. apply Hin, Hq.
  - repeat constructor.
Qed.

Lemma draw_stays_in_window_witness :
  exists cmds,
    draw corner_game (mkDisplay 60 600 600) = Some cmds /\
    Forall (inside (mkDisplay 60 600 600)) cmds.
Proof.
  apply draw_stays_in_window; [exact corner_game_reachable | reflexivity].
Defined.

(** ** The instructions screen *)

Lemma instruction_events_spec evs waiting w :
  instruction_events evs waiting w =
    if has_quit evs then (SysExit, w)
    else (Val (waiting && negb (has_keydown evs)), w).
Proof.
  revert waiting. induction evs as [|ev evs IH]; intros waiting;
    cbn [instruction_events has_quit has_keydown existsb].
  - rewrite andb_true_r. reflexivity.
  - destruct ev as [|k|]; cbn [orb negb]; [reflexivity| |exact (IH waiting)].
    rewrite IH. fold (has_quit evs). destruct (has_quit evs); [reflexivity|].
    rewrite andb_false_r. reflexivity.
Qed.

Lemma instructions_wait_cons evs script w :
  instructions_wait (evs :: script) w =
    if has_quit evs then (SysExit, set_polls w script)
    else if has_keydown evs then (Val tt, set_polls w script)
    else instructions_wait script (set_polls w script).
Proof.
  cbn [instructions_wait]. unfold bind. rewrite instruction_events_spec.
  destruct (has_quit evs); [reflexivity|].
  destruct (has_keydown evs); reflexivity.
Qed.

Lemma instructions_wait_Val script w w' :
  instructions_wait script w = (Val tt, w') <->
  exists before evs rest,
    script = before ++ evs :: rest /\ Forall silent before /\
    has_keydown evs = true /\ has_quit evs = false /\
    w' = set_polls w rest.
Proof.
  revert w. induction script as [|evs script IH]; intros w.
  - split; [discriminate|]. intros (before & e & rest & H & _).
    destruct before; discriminate.
  - rewrite instructions_wait_cons. split.
    + destruct (has_quit evs) eqn:Hq; [discriminate|].
      destruct (has_keydown evs) eqn:Hk.
      * intros [= <-]. exists [], evs, script. repeat split; auto.
      * intros H. apply IH in H as (before & e & rest & -> & Hb & Hk' & Hq' & ->).
        exists (evs :: before), e, rest. repeat split; auto.
        constructor; [split; assumption | exact Hb].
    + intros (before & e & rest & Hs & Hb & Hk & Hq & ->).
      destruct before as [|b0 before]; cbn [app] in Hs; injection Hs as -> ->.
      * rewrite Hq, Hk. reflexivity.
      * inversion Hb as [|? ? [Hq0 Hk0] Hb']; subst. rewrite Hq0, Hk0.
        apply IH. exists before, e, rest. repeat split; auto.
Qed.

(** X21: [show_instructions] returns exactly when, after polls that hold
    neither a key press nor a [QUIT], a poll holds a key press and no
    [QUIT]; it has then read the polls up to that one and nothing else. A
    [QUIT] in the poll of the key press, even after it, still ends the
    process. *)
Theorem show_instructions_returns w w' :
  show_instructions w = (Val tt, w') <->
  exists before evs,
    polls w = before ++ evs :: polls w' /\ Forall silent before /\
    has_keydown evs = true /\ has_quit evs = false /\
    w' = set_polls w (polls w').
Proof.
  unfold show_instructions. rewrite instructions_wait_Val. split.
  - intros (before & evs & rest & Hs & Hb & Hk & Hq & ->).
    exists before, evs. cbn [polls set_polls]. auto.
  - intros (before & evs & Hs & Hb & Hk & Hq & Hw).
    exists before, evs, (polls w'). auto.
Qed.

Lemma show_instructions_returns_witness :
  show_instructions (mkWorld [] [] [[OTHER]; [OTHER; KEYDOWN K_other]; [QUIT]] []) =
    (Val tt, mkWorld [] [] [[QUIT]] []).
Proof.
  apply show_instructions_returns.
  exists [[OTHER]], [OTHER; KEYDOWN K_other].
  repeat split. repeat constructor.
Defined.

(** ** The main loop *)

Lemma keeps_shown_random_choice {A : Type} (seq : list A) :
  keeps_shown (random_choice seq).
Proof.
  intros w. unfold random_choice. destruct (rng w) as [|r rest]; [reflexivity|].
  destruct (seq !! (r mod length seq)%nat); reflexivity.
Qed.

#[local] Hint Resolve keeps_shown_random_choice : frame.

Lemma keeps_shown_enemy_step g e : keeps_shown (enemy_step g e).
Proof. destruct e as [ex ey]. unfold enemy_step. auto 8 with frame. Qed.

Lemma keeps_shown_for_each {A B : Type} (f : A -> M B) (l : list A) :
  (forall a, keeps_shown (f a)) -> keeps_shown (for_each f l).
Proof.
  intros Hf. induction l as [|a l IH]; cbn [for_each]; auto with frame.
Qed.

Lemma keeps_shown_update g : keeps_shown (update g).
Proof.
  unfold update. destruct (_ <=? _); [|apply keeps_shown_ret].
  apply keeps_shown_bind; [|intros es; apply keeps_shown_ret].
  apply keeps_shown_for_each. intros e. apply keeps_shown_enemy_step.
Qed.

Lemma keeps_shown_move_players g move : keeps_shown (move_players g move).
Proof.
  unfold move_players. destruct (entangled_move _ _ _ _) as [c1 c2].
  auto 6 with frame.
Qed.

#[local] Hint Resolve keeps_shown_update keeps_shown_move_players : frame.

Lemma keeps_shown_handle_events evs g : keeps_shown (handle_events evs g).
Proof.
  revert g. induction evs as [|ev evs IH]; intros g; cbn [handle_events].
  - auto with frame.
  - destruct ev as [|k|]; [| destruct k; cbn [key_move] |]; auto with frame.
Qed.

Lemma keeps_shown_handle_input g : keeps_shown (handle_input g).
Proof.
  unfold handle_input. apply keeps_shown_bind.
  - intros w. unfold event_get. destruct (polls w); reflexivity.
  - intros evs. apply keeps_shown_handle_events.
Qed.

Lemma keeps_shown_show_instructions : keeps_shown show_instructions.
Proof.
  intros w. unfold show_instructions. generalize (polls w) as script.
  intros script. revert w.
  induction script as [|evs script IH]; intros w; [reflexivity|].
  rewrite instructions_wait_cons.
  destruct (has_quit evs); [reflexivity|].
  destruct (has_keydown evs); [reflexivity|].
  rewrite IH. reflexivity.
Qed.

Lemma run_loop_stopped frames d g w :
  running g = false -> run_loop frames d g w = (Val g, w).
Proof. intros Hr. destruct frames; cbn [run_loop]; rewrite Hr; reflexivity. Qed.

(** One round of the loop shows nothing, or one end screen after which
    the loop is over. *)
Lemma run_loop_shown frames d g w :
  shown (snd (run_loop frames d g w)) = shown w \/
  exists message, shown (snd (run_loop frames d g w)) = shown w ++ [message].
Proof.
  revert g w. induction frames as [|frames IH]; intros g w; cbn [run_loop];
    (destruct (running g); [|left; reflexivity]); [left; reflexivity|].
  unfold bind.
  pose proof (keeps_shown_handle_input g w) as H1.
  destruct (handle_input g w) as [[g1| | |] w1]; cbn [snd] in H1;
    try (left; exact H1).
  pose proof (keeps_shown_update g1 w1) as H2.
  destruct (update g1 w1) as [[g2| | |] w2]; cbn [snd] in H2;
    try (left; cbn [snd]; congruence).
  destruct (draw g2 d) as [cmds|]; cbn [orraise ret raise];
    [|left; cbn [snd]; congruence].
  assert (shown w2 = shown w) as Hw by congruence.
  pose proof (check_game_over_shown g2 w2) as H3.
  pose proof (check_game_over_Val g2 w2) as H4.
  rewrite Hw in H3.
  assert (win_condition g2 || loss_condition g2 = false ->
          shown (snd (check_game_over g2 w2)) = shown w) as Hquiet.
  { intros Hend. apply orb_false_iff in Hend as [Hwin Hloss].
    rewrite H3, Hwin, Hloss, app_nil_r. reflexivity. }
  assert (exists message,
            win_condition g2 || loss_condition g2 = true ->
            shown (snd (check_game_over g2 w2)) = shown w ++ [message])
    as [message Hscreen].
  { destruct (win_condition g2); [|destruct (loss_condition g2)];
      [exists win_message | exists lose_message | exists win_message];
      intros Hend; try discriminate; exact H3. }
  clear H3.
  destruct (win_condition g2 || loss_condition g2) eqn:Hend.
  - specialize (Hscreen eq_refl).
    destruct (check_game_over g2 w2) as [[g3| | |] w3]; cbn [snd] in Hscreen;
      try (right; exists message; exact Hscreen).
    destruct (H4 g3 w3 eq_refl) as [Hstop _].
    destruct (Hstop eq_refl) as [Hrun _].
    rewrite run_loop_stopped by exact Hrun. cbn [snd].
    right. exists message. exact Hscreen.
  - specialize (Hquiet eq_refl).
    destruct (check_game_over g2 w2) as [[g3| | |] w3]; cbn [snd] in Hquiet;
      try (left; exact Hquiet).
    destruct (IH g3 w3) as [Hs|[m Hs]]; [left | right; exists m];
      rewrite Hs, Hquiet; reflexivity.
Qed.

Lemma run_loop_S frames d g w :
  run_loop (S frames) d g w =
    if running g then
      (g <- handle_input g ;;
       g <- update g ;;
       _ <- orraise IndexError (draw g d) ;;
       g <- check_game_over g ;;
       run_loop frames d g) w
    else (Val g, w).
Proof. cbn [run_loop]. destruct (running g); reflexivity. Qed.

(** More rounds of the clock do not change how a run ended. *)
Lemma run_loop_more frames d g w :
  fst (run_loop frames d g w) <> Starved ->
  run_loop (S frames) d g w = run_loop frames d g w.
Proof.
  revert g w. induction frames as [|frames IH]; intros g w H.
  - cbn [run_loop] in *. destruct (running g); [|reflexivity].
    exfalso. apply H. reflexivity.
  - rewrite (run_loop_S (S frames) d g w).
    rewrite (run_loop_S frames d g w) in H |- *.
    destruct (running g); [|reflexivity].
    unfold bind in *.
    destruct (handle_input g w) as [[g1| | |] w1]; try reflexivity.
    destruct (update g1 w1) as [[g2| | |] w2]; try reflexivity.
    destruct (orraise IndexError (draw g2 d) w2) as [[cmds| | |] w3];
      try reflexivity.
    destruct (check_game_over g2 w3) as [[g3| | |] w4]; try reflexivity.
    apply IH. exact H.
Qed.

(** X22: a whole run of the game, from the instructions screen on, puts
    up at most one end screen, however long it goes on and however it
    ends: once an end screen is left, by restarting as well, the loop is
    over. *)
Theorem run_shows_one_end_screen frames d g w :
  (length (screens_since w (run frames d g w)) <= 1)%nat.
Proof.
  unfold screens_since, run, bind.
  pose proof (keeps_shown_show_instructions w) as H0.
  destruct (show_instructions w) as [[[]| | |] w0]; cbn [snd] in H0;
    try (cbn [snd]; rewrite H0, drop_all; cbn; lia).
  destruct (run_loop_shown frames d g w0) as [Hs|[m Hs]]; rewrite Hs, H0.
  - rewrite drop_all. cbn. lia.
  - rewrite drop_app_length. cbn. lia.
Qed.

(** A run in which the player wins at once and answers the end screen
    with R: the loop returns after that round, with the game reset. *)
Example run_restart_ends :
  exists g' w',
    run 1 (mkDisplay 60 600 600) won_and_caught
      (mkWorld (corner_coins 10) [] [[KEYDOWN K_other]; []; [KEYDOWN K_r]] []) =
      (Val g', w') /\
    running g' = false /\ shown w' = [win_message] /\ polls w' = [].
Proof. eexists _, _. vm_compute. repeat split. Qed.

(** ** What a restart reads *)

Lemma draws_at_least_ret {A : Type} (a : A) : draws_at_least 0 (ret a).
Proof.
  intros w b w' H. apply ret_Val in H as [_ ->]. exists [].
  repeat split; [lia | symmetry; apply set_qbits_same].
Qed.

Lemma draws_at_least_orraise {A : Type} e (o : option A) :
  draws_at_least 0 (orraise e o).
Proof.
  intros w b w' H. apply orraise_Val in H as [_ ->]. exists [].
  repeat split; [lia | symmetry; apply set_qbits_same].
Qed.

Lemma draws_at_least_bind {A B : Type} n1 n2 (m : M A) (k : A -> M B) :
  draws_at_least n1 m -> (forall a, draws_at_least n2 (k a)) ->
  draws_at_least (n1 + n2) (bind m k).
Proof.
  intros Hm Hk w b w' H. inv_bind H as a w1 Ha.
  apply Hm in Ha as (u1 & Hq1 & Hl1 & Hw1).
  apply Hk in H as (u2 & Hq2 & Hl2 & Hw2).
  exists (u1 ++ u2). split; [|split].
  - rewrite Hq1, Hq2, app_assoc. reflexivity.
  - rewrite length_app. lia.
  - rewrite Hw2 at 1. rewrite Hw1. reflexivity.
Qed.

Lemma draws_at_least_weaken {A : Type} n n' (m : M A) :
  (n' <= n)%nat -> draws_at_least n m -> draws_at_least n' m.
Proof.
  intros Hn Hm w a w' H. apply Hm in H as (u & Hq & Hl & Hw).
  exists u. repeat split; [assumption | lia | assumption].
Qed.

Lemma draws_at_least_quantum_random_int max_value :
  draws_at_least (bit_length max_value) (quantum_random_int max_value).
Proof.
  intros w v w' H. apply quantum_random_int_loop_Val in H
    as (rejected & accepted & (_ & Hlen & _) & _ & Hq & Hw).
  exists (concat rejected ++ accepted). split; [|split].
  - rewrite Hq, app_assoc. reflexivity.
  - rewrite length_app. lia.
  - exact Hw.
Qed.

Lemma draws_at_least_random_empty_cell_loop fuel g :
  draws_at_least (2 * bit_length (grid_size g)) (random_empty_cell_loop fuel g).
Proof.
  induction fuel as [|fuel IH]; cbn [random_empty_cell_loop].
  - intros w p w' H. discriminate.
  - replace (2 * bit_length (grid_size g))%nat
      with (bit_length (grid_size g) + (bit_length (grid_size g) + (0 + 0)))%nat
      by lia.
    apply draws_at_least_bind; [apply draws_at_least_quantum_random_int|].
    intros x.
    apply draws_at_least_bind; [apply draws_at_least_quantum_random_int|].
    intros y.
    apply draws_at_least_bind; [apply draws_at_least_orraise|]. intros cell.
    destruct (cell && _); [apply draws_at_least_ret|].
    eapply draws_at_least_weaken; [|exact IH]. lia.
Qed.

Lemma draws_at_least_random_empty_cell g :
  draws_at_least (2 * bit_length (grid_size g)) (random_empty_cell g).
Proof.
  intros w p w' H.
  exact (draws_at_least_random_empty_cell_loop _ g w p w' H).
Qed.

Lemma draws_at_least_comprehension {A : Type} k n (m : M A) :
  draws_at_least n m -> draws_at_least (k * n) (comprehension k m).
Proof.
  intros Hm. induction k as [|k IH]; cbn [comprehension].
  - apply draws_at_least_ret.
  - replace (S k * n)%nat with (n + (k * n + 0))%nat by lia.
    apply draws_at_least_bind; [exact Hm|]. intros a.
    apply draws_at_least_bind; [exact IH|]. intros l.
    apply draws_at_least_ret.
Qed.

Lemma draws_at_least_quantum_maze_visibility size start goal :
  draws_at_least (Z.to_nat size * Z.to_nat size)
    (quantum_maze_visibility size start goal).
Proof.
  intros w grid w' H.
  unfold quantum_maze_visibility in H. destruct start as [sx sy].
  destruct (match goal with Some g => g | None => _ end) as [gx gy].
  inv_bind H as g0 w0 Hrows.
  pose proof (maze_rows_Val _ _ _ _ _ Hrows) as (_ & _ & Hw0).
  apply maze_rows_cells in Hrows as (used & Hq & Hlu & _).
  inv_bind H as g1 w1 Hs. apply orraise_Val in Hs as [_ ->].
  inv_bind H as g2 w2 Hg. apply orraise_Val in Hg as [_ ->].
  apply ret_Val in H as [_ ->].
  exists used. repeat split; [exact Hq | lia | exact Hw0].
Qed.

Lemma draws_at_least_reset_game g :
  draws_at_least
    (Z.to_nat (grid_size g) * Z.to_nat (grid_size g) +
     3 * (2 * bit_length (grid_size g))) (reset_game g).
Proof.
  unfold reset_game. cbn [grid_size set_goal goal].
  replace (3 * (2 * bit_length (grid_size g)))%nat
    with (3 * (2 * bit_length (grid_size g)) + 0)%nat by lia.
  apply draws_at_least_bind;
    [apply draws_at_least_quantum_maze_visibility|]. intros m.
  apply draws_at_least_bind; [|intros es; apply draws_at_least_ret].
  apply draws_at_least_comprehension.
  match goal with
  | |- draws_at_least _ (random_empty_cell ?g1) =>
      exact (draws_at_least_random_empty_cell g1)
  end.
Qed.

(** X23: a restart that returns has read at least [N * N] coins for the
    maze and six draws of [N.bit_length()] coins for the adversaries, from
    the front of the coins, and nothing else: the generator of [random],
    the pending events and the display are as they were. *)
Theorem reset_game_reads_coins g w g' w' :
  reset_game g w = (Val g', w') ->
  exists used,
    qbits w = used ++ qbits w' /\
    (Z.to_nat (grid_size g) * Z.to_nat (grid_size g) +
     6 * bit_length (grid_size g) <= length used)%nat /\
    rng w' = rng w /\ polls w' = polls w /\ shown w' = shown w.
Proof.
  intros H. apply draws_at_least_reset_game in H as (used & Hq & Hl & ->).
  exists used. cbn. repeat split; [exact Hq | lia].
Qed.

Lemma reset_game_reads_coins_witness :
  exists g' w' used,
    reset_game (fresh_game 10) (coins_world (corner_coins 10)) = (Val g', w') /\
    corner_coins 10 = used ++ qbits w' /\ (100 + 6 * 4 <= length used)%nat.
Proof.
  eexists _, _. 
  assert (reset_game (fresh_game 10) (coins_world (corner_coins 10)) =
            (Val corner_game, coins_world [])) as H by (vm_compute; reflexivity).
  destruct (reset_game_reads_coins _ _ _ _ H) as (used & Hq & Hl & _).
  exists used. split; [exact H|]. split; [exact Hq | exact Hl].
Defined.

(** ** Leaving an end screen *)

Lemma end_screen_events_Val evs g waiting w g' waiting' w' :
  end_screen_events evs g waiting w = (Val (g', waiting'), w') ->
  has_quit evs = false /\ has_key K_q evs = false /\
  waiting' = waiting && negb (has_key K_r evs) /\
  w' = set_qbits w (qbits w').
Proof.
  revert g waiting w. induction evs as [|ev evs IH]; intros g waiting w H;
    cbn [end_screen_events] in H.
  - apply ret_Val in H as [[= <- <-] ->]. cbn. rewrite andb_true_r.
    repeat split. symmetry. apply set_qbits_same.
  - destruct ev as [|k|]; [discriminate| |].
    + destruct k; try discriminate;
        try (apply IH in H as (Hq & Hk & Hw & Hw'); cbn; auto).
      inv_bind H as g1 w1 Hr.
      apply draws_at_least_reset_game in Hr as (_ & _ & _ & Hw1).
      apply IH in H as (Hq & Hk & Hw & Hw'). cbn.
      repeat split; auto.
      * rewrite Hw. rewrite andb_false_r. reflexivity.
      * rewrite Hw' at 1. rewrite Hw1. reflexivity.
    + apply IH in H as (Hq & Hk & Hw & Hw'). cbn. auto.
Qed.

Lemma end_screen_wait_Val script g w g' w' :
  end_screen_wait script g w = (Val g', w') ->
  exists before evs,
    script = before ++ evs :: polls w' /\ Forall ignored before /\
    has_key K_r evs = true /\ has_quit evs = false /\ has_key K_q evs = false.
Proof.
  revert g w. induction script as [|evs script IH]; intros g w H;
    cbn [end_screen_wait] in H; [discriminate|].
  inv_bind H as r w1 Hev. destruct r as [g1 b].
  apply end_screen_events_Val in Hev as (Hq & Hk & Hb & Hw1).
  cbn [fst snd andb] in *.
  destruct (has_key K_r evs) eqn:Hr; cbn [negb] in Hb; subst b.
  - apply ret_Val in H as [_ ->]. exists [], evs.
    rewrite Hw1. cbn. repeat split; auto.
  - apply IH in H as (before & e & Hs & Hb & Hr' & Hq' & Hk').
    exists (evs :: before), e. rewrite Hs. repeat split; auto.
    constructor; [repeat split; assumption | exact Hb].
Qed.

(** X24: an end screen is left only by a restart: when [show_end_screen]
    returns, the polls it read end with one that holds the key R and
    neither [QUIT] nor the key Q, and the polls before that one held none
    of the three; the game it returns is the one the restart built. *)
Theorem show_end_screen_left_by_restart g message w g' w' :
  show_end_screen g message w = (Val g', w') ->
  (exists before evs,
     polls w = before ++ evs :: polls w' /\ Forall ignored before /\
     has_key K_r evs = true /\ has_quit evs = false /\
     has_key K_q evs = false) /\
  exists g0, reset_state g0 g'.
Proof.
  intros H. split.
  - unfold show_end_screen in H. apply end_screen_wait_Val in H. exact H.
  - eapply post_show_end_screen. exact H.
Qed.

Lemma show_end_screen_left_by_restart_witness :
  exists g' w' before evs,
    show_end_screen won_and_caught win_message restart_world = (Val g', w') /\
    polls restart_world = before ++ evs :: polls w' /\
    has_key K_r evs = true.
Proof.
  eexists _, _.
  assert (show_end_screen won_and_caught win_message restart_world =
            (Val corner_game, mkWorld [] [] [] [win_message])) as H
    by (vm_compute; reflexivity).
  destruct (show_end_screen_left_by_restart _ _ _ _ _ H)
    as [(before & evs & Hs & _ & Hr & _) _].
  exists before, evs. split; [exact H|]. split; [exact Hs | exact Hr].
Defined.

(** ** One poll of input *)

(** X25: in [handle_input] the restart key ends the handling of the poll:
    the events that follow it in the same poll are dropped. *)
Theorem handle_events_restart_drops_rest evs1 evs2 g w :
  handle_events (evs1 ++ KEYDOWN K_r :: evs2) g w =
  handle_events (evs1 ++ [KEYDOWN K_r]) g w.
Proof.
  revert g w. induction evs1 as [|ev evs1 IH]; intros g w; [reflexivity|].
  cbn [app handle_events].
  destruct ev as [|k|]; [apply IH | | apply IH].
  destruct k; cbn [key_move]; try apply IH; try reflexivity;
    unfold bind; destruct (move_players g _ w) as [[g1| | |] w1];
    try reflexivity; apply IH.
Qed.

Lemma post_handle_events_no_restart evs g :
  has_key K_r evs = false ->
  post (handle_events evs g)
    (fun g' =>
       same_board g g' /\
       enemy_move_delay g' = enemy_move_delay g /\
       enemy_move_counter g' = enemy_move_counter g /\
       running g' = running g && negb (has_quit evs)).
Proof.
  revert g. induction evs as [|ev evs IH]; intros g Hr; cbn [handle_events].
  - apply post_ret. unfold same_board. cbn. rewrite andb_true_r. auto.
  - assert (has_key K_r evs = false) as Hr'.
    { cbn in Hr. apply orb_false_iff in Hr. apply Hr. }
    destruct ev as [|k|].
    + eapply post_weaken; [apply IH, Hr'|]. cbn.
      intros g' (Hb & Hd & Hc & Hrun). rewrite Hrun, andb_false_r. auto.
    + assert (forall move,
                post (g' <- move_players g move ;; handle_events evs g')
                  (fun g' =>
                     same_board g g' /\
                     enemy_move_delay g' = enemy_move_delay g /\
                     enemy_move_counter g' = enemy_move_counter g /\
                     running g' = running g && negb (has_quit (KEYDOWN k :: evs))))
        as Hmove.
      { intros move. eapply post_bind.
        - intros w g1 w1 H.
          pose proof (post_move_players_effect g move _ _ _ H) as Heff.
          assert (running g1 = running g) as Hrun.
          { revert H. unfold move_players.
            destruct (entangled_move _ _ _ _) as [c1 c2]. intros H.
            inv_bind H as v1 w2 Hv1. inv_bind H as v2 w3 Hv2.
            apply ret_Val in H as [<- _]. destruct v1, v2; reflexivity. }
          exact (conj Heff Hrun).
        - intros g1 [((Hn & Hm & Hg & Hes) & Hd & Hc & _) Hrun].
          eapply post_weaken; [apply IH, Hr'|]. cbn.
          intros g' ((Hn' & Hm' & Hg' & Hes') & Hd' & Hc' & Hrun').
          unfold same_board. rewrite Hn', Hm', Hg', Hes', Hd', Hc', Hrun', Hrun.
          auto 10. }
      destruct k; cbn [key_move]; try apply Hmove; try discriminate;
        (eapply post_weaken; [apply IH, Hr'|]); cbn; auto.
    + eapply post_weaken; [apply IH, Hr'|]. cbn. auto.
Qed.

(** X26: a poll without the restart key leaves the grid size, the maze,
    the goal, the adversaries and their timer as they are; [running]
    becomes false when the poll holds a [QUIT] and is unchanged
    otherwise. *)
Theorem handle_input_without_restart g w g' w' :
  match polls w with
  | [] => True
  | evs :: _ => has_key K_r evs = false
  end ->
  handle_input g w = (Val g', w') ->
  same_board g g' /\
  enemy_move_delay g' = enemy_move_delay g /\
  enemy_move_counter g' = enemy_move_counter g /\
  running g' = running g && negb (has_quit (hd [] (polls w))).
Proof.
  unfold handle_input, bind, event_get. intros Hr H.
  destruct (polls w) as [|evs script];
    apply post_handle_events_no_restart in H; cbn [hd]; auto.
Qed.

Lemma handle_input_without_restart_witness :
  exists g' w',
    handle_input corner_game (mkWorld [] [] [[KEYDOWN K_RIGHT; QUIT]] []) =
      (Val g', w') /\
    maze g' = maze corner_game /\ running g' = false /\
    player1_pos g' = (1, 0).
Proof.
  eexists _, _. split; [vm_compute; reflexivity|].
  destruct (handle_input_without_restart corner_game
              (mkWorld [] [] [[KEYDOWN K_RIGHT; QUIT]] []) _ _ eq_refl eq_refl)
    as ((_ & Hm & _) & _ & _ & Hrun).
  split; [exact Hm|]. split; [exact Hrun | reflexivity].
Defined.
